(** * A resumable chunked pipeline: batch_clamp3.py and merge_outputs.py

    The two scripts are embedded as functions over an explicit file-system
    state.  Python integers are [Z], lists are lists, a [Path] is the list of
    its components, and the file system is a finite map from paths to nodes.
    Exceptions and [sys.exit] are outcomes of a small state-and-abort monad;
    every file-system call and every [print] is also recorded in a log, so
    that statements such as "no file is transferred" can be made about a
    run. *)

From Stdlib Require Import ZArith Lia Decimal DecimalString DecimalNat.
From stdpp Require Import gmap strings list fin_maps sorting.

Local Open Scope Z_scope.

(** ** Python values *)

Module Py.

(** The exceptions that the modelled calls can raise. *)
Inductive exn :=
| ZeroDivisionError
| FileExistsError
| FileNotFoundError
| NotADirectoryError
| IsADirectoryError
| SameFileError
| ShutilError
| DirectoryMove.

Inductive result (A : Type) :=
| OK (a : A)
| Raise (e : exn).
Arguments OK {A} a.
Arguments Raise {A} e.

(** [range(n)]: empty for [n <= 0]. *)
Definition range (n : Z) : list nat := seq 0 (Z.to_nat n).

(** [math.ceil(a / n)] for [n <> 0].  The source divides as floats; the
    quotient is exact for every list length below 2^53. *)
Definition ceil_div (a n : Z) : Z := - ((- a) / n).

(** How a slice bound is normalised against the length of the list:
    a negative bound counts from the end, and both are clamped. *)
Definition clamp_index (len i : Z) : Z :=
  if i <? 0 then Z.max (i + len) 0 else Z.min i len.

(** [l[a:b]] *)
Definition py_slice {A} (l : list A) (a b : Z) : list A :=
  let len := Z.of_nat (length l) in
  let lo := clamp_index len a in
  let hi := clamp_index len b in
  take (Z.to_nat (hi - lo)) (drop (Z.to_nat lo) l).

(** [f"{idx:02d}"] for a non-negative index: decimal digits, padded with
    a zero on the left up to width two. *)
Definition fmt02 (idx : nat) : string :=
  let s := NilZero.string_of_uint (Nat.to_uint idx) in
  if (String.length s <? 2)%nat then "0" +:+ s else s.

End Py.
Export Py.

(** ** batch_clamp3.py: the partitioner *)

Module Partition.

(** [chunkify(files, n)].  It is a generator: nothing of its body runs
    before the first group is requested, which is where the division by
    zero is raised; the callers below place the call accordingly. *)
Definition chunkify {A} (files : list A) (n : Z) : result (list (list A)) :=
  if decide (n = 0) then Raise ZeroDivisionError
  else
    let k := ceil_div (Z.of_nat (length files)) n in
    OK ((λ i : nat, py_slice files (Z.of_nat i * k) ((Z.of_nat i + 1) * k))
          <$> range n).

End Partition.
Export Partition.

(** ** The file system *)

Module Fs.

(** A resolved absolute path is the list of its components; the root
    directory is the empty list. *)
Abbreviation path := (list string) (only parsing).

Inductive node :=
| File (data : string)
| Dir.

Global Instance node_eq_dec : EqDecision node.
Proof. solve_decision. Defined.

Abbreviation FS := (gmap (list string) node) (only parsing).

(** [Path.name] and [Path.parent] *)
Definition name (p : path) : string := default "" (last p).
Definition parent (p : path) : path := removelast p.

(** What a path designates; the root is always a directory. *)
Definition kind (fs : FS) (p : path) : option node :=
  match p with
  | [] => Some Dir
  | _ => fs !! p
  end.

(** [Path.exists()] and [os.path.isdir] *)
Definition exists_ (p : path) (fs : FS) : bool := bool_decide (is_Some (kind fs p)).
Definition is_dir (p : path) (fs : FS) : bool := bool_decide (kind fs p = Some Dir).

(** Creation of the components [rest] below [base], one after the other:
    an existing directory is kept, a missing one is created, a regular
    file in the way is an error. *)
Fixpoint mkdir_from (base : path) (rest : list string) (fs : FS) : result FS :=
  match rest with
  | [] => OK fs
  | c :: rest' =>
      let p := base ++ [c] in
      match fs !! p with
      | Some (File _) =>
          Raise (match rest' with [] => FileExistsError | _ => NotADirectoryError end)
      | Some Dir => mkdir_from p rest' fs
      | None => mkdir_from p rest' (<[p := Dir]> fs)
      end
  end.

(** [p.mkdir(parents=True, exist_ok=True)] *)
Definition mkdir_p (p : path) (fs : FS) : result FS := mkdir_from [] p fs.

(** [p.mkdir(parents=True)] *)
Definition mkdir_new (p : path) (fs : FS) : result FS :=
  if exists_ p fs then Raise FileExistsError else mkdir_p p fs.

(** Writing a regular file at [dst]: the directory that holds it must
    exist, and [dst] must not be a directory. *)
Definition write_file (dst : path) (data : string) (fs : FS) : result FS :=
  match kind fs dst with
  | Some Dir => Raise IsADirectoryError
  | _ =>
      match kind fs (parent dst) with
      | Some Dir => OK (<[dst := File data]> fs)
      | Some (File _) => Raise NotADirectoryError
      | None => Raise FileNotFoundError
      end
  end.

(** [shutil.copy2(src, dst)]: a destination that is a directory receives
    the file under the source's name; copying a directory, or a file onto
    itself, is an error. *)
Definition copy2 (src dst : path) (fs : FS) : result FS :=
  let dst' := if is_dir dst fs then dst ++ [name src] else dst in
  match kind fs src with
  | None => Raise FileNotFoundError
  | Some Dir => Raise IsADirectoryError
  | Some (File data) =>
      if decide (src = dst') then Raise SameFileError
      else write_file dst' data fs
  end.

(** [os.rename(src, dst)] for a regular file, as [shutil.move] uses it
    (an existing regular file at [dst] is replaced).  Renaming a whole
    directory is not modelled: it ends the run with [DirectoryMove]. *)
Definition rename (src dst : path) (fs : FS) : result FS :=
  match kind fs src with
  | None => Raise FileNotFoundError
  | Some Dir => Raise DirectoryMove
  | Some (File data) =>
      if decide (src = dst) then OK fs
      else write_file dst data (delete src fs)
  end.

(** [shutil.move(src, dst)] *)
Definition shutil_move (src dst : path) (fs : FS) : result FS :=
  if is_dir dst fs then
    let real_dst := dst ++ [name src] in
    if exists_ real_dst fs then Raise ShutilError else rename src real_dst fs
  else rename src dst fs.

(** [shutil.rmtree(p)]: the folder goes with everything below it; a
    regular file or a missing path is an error. *)
Definition rmtree (p : path) (fs : FS) : result FS :=
  match kind fs p with
  | None => Raise FileNotFoundError
  | Some (File _) => Raise NotADirectoryError
  | Some Dir => OK (filter (λ kv, ¬ p `prefix_of` kv.1) fs)
  end.

(** The pattern ["*.mp3"] matches the names that end in [.mp3]. *)
Definition matches_mp3 (s : string) : bool :=
  bool_decide (String.list_ascii_of_string ".mp3" `suffix_of` String.list_ascii_of_string s).

(** Everything strictly below [d], in no particular order. *)
Definition descendants (d : path) (fs : FS) : list path :=
  filter (λ p, d `prefix_of` p ∧ p ≠ d) (map_to_list fs).*1.

(** The entries of directory [d], in no particular order. *)
Definition entries (d : path) (fs : FS) : list path :=
  filter (λ p, p ≠ [] ∧ parent p = d) (map_to_list fs).*1.

(** [d.rglob("*.mp3")] and [d.glob("*.mp3")]: nothing when [d] is not a
    directory. *)
Definition rglob_mp3 (d : path) (fs : FS) : list path :=
  if is_dir d fs then filter (λ p, matches_mp3 (name p)) (descendants d fs) else [].
Definition glob_mp3 (d : path) (fs : FS) : list path :=
  if is_dir d fs then filter (λ p, matches_mp3 (name p)) (entries d fs) else [].

(** The order of [Path] objects: lexicographic on the components. *)
Fixpoint path_leb (p q : path) : bool :=
  match p, q with
  | [], _ => true
  | _ :: _, [] => false
  | a :: p', b :: q' =>
      if decide (a = b) then path_leb p' q' else bool_decide (a ≤ b)%string
  end.
Definition path_le (p q : path) : Prop := path_leb p q.

Global Instance path_le_dec : RelDecision path_le.
Proof. intros p q. unfold path_le. apply _. Defined.

(** [sorted(...)] on paths *)
Definition sorted (l : list path) : list path := merge_sort path_le l.

End Fs.
Export Fs.

(** ** Runs: state, log and abrupt termination *)

Module Run.

(** What the scripts print. *)
Inductive msg :=
| MsgNoMp3 (src : path)
| MsgSkip (idx : nat)
| MsgProcessing (idx : nat) (files : nat)
| MsgFailed (idx : nat) (code : Z)
| MsgFix
| MsgAllFinished
| MsgNowRun (chunks : Z) (out_root : path)
| MsgMissing (chunk_dir : path)
| MsgCollision (target : path)
| MsgMergeComplete.

(** The calls that a run makes, in the order in which it makes them. *)
Inductive event :=
| EMkdir (p : path)
| ECopy (src dst : path)
| EMove (src dst : path)
| EWorker (idx : nat) (chunk_in chunk_out : path) (code : Z)
| EPrint (m : msg).

Global Instance msg_eq_dec : EqDecision msg.
Proof. solve_decision. Defined.
Global Instance event_eq_dec : EqDecision event.
Proof. solve_decision. Defined.

Record state := State { fs_of : FS; log : list event }.

(** How a run ends when it does not reach the end of the script. *)
Inductive outcome :=
| SysExit (code : Z)
| Uncaught (e : exn).

Inductive res (A : Type) :=
| Ret (a : A)
| Abort (o : outcome).
Arguments Ret {A} a.
Arguments Abort {A} o.

Definition M (A : Type) : Type := state → res A * state.

Global Instance M_ret : MRet M := λ A a s, (Ret a, s).
Global Instance M_bind : MBind M := λ A B f m s,
  match m s with
  | (Ret a, s') => f a s'
  | (Abort o, s') => (Abort o, s')
  end.

Definition emit (e : event) : M unit :=
  λ s, (Ret tt, State (fs_of s) (log s ++ [e])).
Definition query {A} (f : FS → A) : M A :=
  λ s, (Ret (f (fs_of s)), s).
Definition lift {A} (r : result A) : M A :=
  λ s, match r with OK a => (Ret a, s) | Raise e => (Abort (Uncaught e), s) end.
Definition fs_call (f : FS → result FS) : M unit :=
  λ s, match f (fs_of s) with
       | OK fs' => (Ret tt, State fs' (log s))
       | Raise e => (Abort (Uncaught e), s)
       end.
Definition sys_exit {A} (code : Z) : M A :=
  λ s, (Abort (SysExit code), s).

(** A [for] loop whose body may end the run. *)
Fixpoint for_each {A} (l : list A) (body : A → M unit) : M unit :=
  match l with
  | [] => mret tt
  | x :: l' => body x ;; for_each l' body
  end.

(** The exit status of the process: 0 at the end of the script, the
    argument of [sys.exit], and 1 for an uncaught exception. *)
Definition exit_status (r : res unit) : Z :=
  match r with
  | Ret _ => 0
  | Abort (SysExit code) => code
  | Abort (Uncaught _) => 1
  end.

(** [chunk_{idx:02d}] *)
Definition chunk_name (idx : nat) : string := "chunk_" +:+ fmt02 idx.

(** [enumerate(l)] *)
Definition enumerate {A} (l : list A) : list (nat * A) := imap pair l.

End Run.
Export Run.

(** ** batch_clamp3.py: the orchestrator *)

Module Batch.

Record args := Args {
  src_dir : path;
  work_dir : path;
  out_root : path;
  chunks : Z;
  move : bool
}.

(** The type of the external worker: from the two directories it is
    given and the file system it finds, an exit status and the file
    system it leaves. *)
Abbreviation worker_t := (path → path → FS → Z * FS) (only parsing).

(** [work_dir / f"chunk_{idx:02d}"] and [out_root / f"chunk_{idx:02d}"] *)
Definition chunk_in (a : args) (idx : nat) : path := work_dir a ++ [chunk_name idx].
Definition chunk_out (a : args) (idx : nat) : path := out_root a ++ [chunk_name idx].

(** [ensure_empty(path)]: what is there is removed, then the folder is
    created anew. *)
Definition ensure_empty (p : path) (fs : FS) : result FS :=
  match (if exists_ p fs then rmtree p fs else OK fs) with
  | OK fs1 => mkdir_new p fs1
  | Raise e => Raise e
  end.

Section with_worker.

(** The external worker [clamp3_embd.py]. *)
Variable worker : worker_t.

(** [subprocess.run([...], check=True)], returning the exit status. *)
Definition run_worker (idx : nat) (input output : path) : M Z :=
  λ s, let '(code, fs') := worker input output (fs_of s) in
       (Ret code, State fs' (log s ++ [EWorker idx input output code])).

(** One file of a group, moved or copied into the chunk folder. *)
Definition transfer (a : args) (dir f : path) : M unit :=
  let target := dir ++ [name f] in
  if move a then emit (EMove f target) ;; fs_call (shutil_move f target)
  else emit (ECopy f target) ;; fs_call (copy2 f target).

(** The body of the loop that creates the chunk folders. *)
Definition materialize (a : args) (ig : nat * list path) : M unit :=
  let dir := chunk_in a ig.1 in
  present ← query (exists_ dir);
  if present : bool then mret tt
  else
    emit (EMkdir dir) ;;
    fs_call (mkdir_new dir) ;;
    for_each ig.2 (transfer a dir).

(** The body of the loop that runs the worker on each chunk. *)
Definition process (a : args) (idx : nat) : M unit :=
  done_before ← query (exists_ (chunk_out a idx));
  if done_before : bool then emit (EPrint (MsgSkip idx))
  else
    files ← query (λ fs, length (glob_mp3 (chunk_in a idx) fs));
    emit (EPrint (MsgProcessing idx files)) ;;
    code ← run_worker idx (chunk_in a idx) (chunk_out a idx);
    if decide (code = 0) then mret tt
    else
      emit (EPrint (MsgFailed idx code)) ;;
      emit (EPrint MsgFix) ;;
      sys_exit 1.

(** Step 1, discovery of the corpus. *)
Definition discover (a : args) (fs : FS) : list path :=
  sorted (rglob_mp3 (src_dir a) fs).

(** Step 2, the chunk folders. *)
Definition create_chunks (a : args) (mp3s : list path) : M unit :=
  emit (EMkdir (work_dir a)) ;;
  fs_call (mkdir_p (work_dir a)) ;;
  groups ← lift (chunkify mp3s (chunks a));
  for_each (enumerate groups) (materialize a).

(** Step 3, the worker on each chunk. *)
Definition run_chunks (a : args) : M unit :=
  emit (EMkdir (out_root a)) ;;
  fs_call (mkdir_p (out_root a)) ;;
  for_each (range (chunks a)) (process a).

(** [main()], with the arguments already parsed and the three paths
    already resolved. *)
Definition main (a : args) : M unit :=
  mp3s ← query (discover a);
  match mp3s with
  | [] => emit (EPrint (MsgNoMp3 (src_dir a))) ;; sys_exit 1
  | _ =>
      create_chunks a mp3s ;;
      run_chunks a ;;
      emit (EPrint MsgAllFinished) ;;
      emit (EPrint (MsgNowRun (chunks a) (out_root a)))
  end.

End with_worker.

(** A run of the script from a file system, with an empty log. *)
Definition run (worker : worker_t) (a : args) (fs : FS)
  : res unit * state :=
  main worker a (State fs []).

End Batch.

(** ** merge_outputs.py *)

Module Merge.

Record args := Args {
  chunks : Z;
  in_root : path;
  dest : path;
  overwrite : bool
}.

(** [in_root / f"chunk_{idx:02d}"] *)
Definition chunk_dir (a : args) (idx : nat) : path := in_root a ++ [chunk_name idx].

Section with_listing.

(** The order in which the operating system lists a directory. *)
Variable os_order : list path → list path.

(** [chunk_dir.iterdir()] *)
Definition iterdir (d : path) (fs : FS) : result (list path) :=
  match kind fs d with
  | None => Raise FileNotFoundError
  | Some (File _) => Raise NotADirectoryError
  | Some Dir => OK (os_order (entries d fs))
  end.

(** The body of the inner loop: one entry of a chunk folder. *)
Definition merge_entry (a : args) (f : path) : M unit :=
  let target := dest a ++ [name f] in
  present ← query (exists_ target);
  if (present : bool) && negb (overwrite a)
  then emit (EPrint (MsgCollision target))
  else emit (ECopy f target) ;; fs_call (copy2 f target).

(** The body of the outer loop: one chunk index. *)
Definition merge_chunk (a : args) (idx : nat) : M unit :=
  present ← query (exists_ (chunk_dir a idx));
  if negb present then emit (EPrint (MsgMissing (chunk_dir a idx)))
  else
    fs ← query id;
    listing ← lift (iterdir (chunk_dir a idx) fs);
    for_each listing (merge_entry a).

(** [main()], with the arguments already parsed and the two paths
    already resolved. *)
Definition main (a : args) : M unit :=
  emit (EMkdir (dest a)) ;;
  fs_call (mkdir_p (dest a)) ;;
  for_each (range (chunks a)) (merge_chunk a) ;;
  emit (EPrint MsgMergeComplete).

End with_listing.

Definition run (os_order : list path → list path) (a : args) (fs : FS)
  : res unit * state :=
  main os_order a (State fs []).

End Merge.

(** ** Vocabulary of the statements *)

Module Obs.

(** Reading an index back from its decimal digits, and the character
    that no chunk name contains. *)
Definition decode_index (s : string) : option nat :=
  Nat.of_uint <$> NilEmpty.uint_of_string s.
Definition dot : Ascii.ascii :=
  Ascii.Ascii false true true true false true false false.

(** A property of the state that a computation keeps, however it ends. *)
Definition keeps (P : state → Prop) {A} (m : M A) : Prop :=
  ∀ s r s', P s → m s = (r, s') → P s'.

Definition on_fs (Φ : gmap (list string) node → Prop) : state → Prop :=
  λ s, Φ (fs_of s).
Definition on_log (ψ : event → Prop) : state → Prop :=
  λ s, Forall ψ (log s).

(** A file-system call that keeps a property of the file system. *)
Definition call_keeps (Φ : gmap (list string) node → Prop)
    (f : gmap (list string) node → result (gmap (list string) node)) : Prop :=
  ∀ fs fs', f fs = OK fs' → Φ fs → Φ fs'.

(** Kinds of log entries. *)
Definition is_transfer (e : event) : bool :=
  match e with ECopy _ _ | EMove _ _ => true | _ => false end.
Definition is_worker (e : event) : bool :=
  match e with EWorker _ _ _ _ => true | _ => false end.
Definition is_worker_of (idx : nat) (e : event) : bool :=
  match e with EWorker i _ _ _ => bool_decide (i = idx) | _ => false end.
Definition transfers_into (dir : path) (e : event) : bool :=
  match e with
  | ECopy _ dst | EMove _ dst => bool_decide (parent dst = dir)
  | _ => false
  end.

(** A path is on disk. *)
Definition present (p : path) (fs : gmap (list string) node) : Prop :=
  exists_ p fs = true.
Definition absent (p : path) (fs : gmap (list string) node) : Prop :=
  exists_ p fs = false.

(** The contract of the external worker that the orchestrator relies
    on: a worker that exits with status 0 leaves its output directory
    on disk. *)
Definition worker_delivers (worker : path → path → gmap (list string) node
                                     → Z * gmap (list string) node) : Prop :=
  ∀ input output fs fs', worker input output fs = (0, fs') → present output fs'.

(** The worker removes none of the chunk folders. *)
Definition worker_keeps_chunks
    (worker : path → path → gmap (list string) node → Z * gmap (list string) node)
    (a : Batch.args) : Prop :=
  ∀ input output fs idx,
    (present (Batch.chunk_in a idx) fs →
       present (Batch.chunk_in a idx) (worker input output fs).2)
    ∧ (present (Batch.chunk_out a idx) fs →
       present (Batch.chunk_out a idx) (worker input output fs).2).

(** The entries that a run leaves in the log when every chunk is
    skipped: the two [mkdir(parents=True, exist_ok=True)] calls and the
    messages. *)
Definition is_idle (a : Batch.args) (e : event) : bool :=
  match e with
  | EPrint _ => true
  | EMkdir p => bool_decide (p = Batch.work_dir a ∨ p = Batch.out_root a)
  | _ => false
  end.

(** Every chunk of the run has its input and its output folder. *)
Definition all_chunks_done (a : Batch.args) (fs : gmap (list string) node) : Prop :=
  ∀ idx, idx ∈ range (Batch.chunks a) →
    present (Batch.chunk_in a idx) fs ∧ present (Batch.chunk_out a idx) fs.

(** A property of the state that no log entry and no file-system call
    can undo. *)
Definition log_monotone (P : state → Prop) : Prop :=
  ∀ s fs' l, P s → P (State fs' (log s ++ l)).

(** A log entry that is neither a worker invocation nor a transfer into
    the folder [dir]. *)
Definition foreign_to (dir : path) (e : event) : Prop :=
  is_worker e = false ∧ transfers_into dir e = false.

(** A path holds a regular file. *)
Definition is_file (p : path) (fs : gmap (list string) node) : bool :=
  match kind fs p with Some (File _) => true | _ => false end.

(** Neither path lies on the way to the other. *)
Definition unrelated (p q : path) : Prop :=
  ¬ p `prefix_of` q ∧ ¬ q `prefix_of` p.

(** A chunk output folder that the merge can read: it is missing, or it
    is a folder that holds regular files only. *)
Definition chunk_ready (d : path) (fs : gmap (list string) node) : Prop :=
  kind fs d = None
  ∨ (kind fs d = Some Dir ∧ ∀ f, f ∈ entries d fs → is_file f fs = true).

(** A destination that the merge can write to: no regular file is in the
    way of the folder, and the folder holds no sub-folder. *)
Definition dest_ready (d : path) (fs : gmap (list string) node) : Prop :=
  (∀ q, q `prefix_of` d → is_file q fs = false)
  ∧ (∀ x, kind fs (d ++ [x]) ≠ Some Dir).

(** What the merge keeps true of the file system while it copies into
    [d]: [d] is a folder without sub-folders, and nothing outside of [d]
    differs from the file system [fs1] found after [d] was created. *)
Definition merge_inv (d : path) (fs1 fs : gmap (list string) node) : Prop :=
  kind fs d = Some Dir
  ∧ (∀ x, kind fs (d ++ [x]) ≠ Some Dir)
  ∧ (∀ q, ¬ d `prefix_of` q → kind fs q = kind fs1 q).

(** The entry [f] of a chunk folder has been dealt with: it was copied or
    its collision was reported, and the destination holds a file of its
    name. *)
Definition merged (d f : path) (s : state) : Prop :=
  (ECopy f (d ++ [name f]) ∈ log s ∨ EPrint (MsgCollision (d ++ [name f])) ∈ log s)
  ∧ is_file (d ++ [name f]) (fs_of s) = true.

End Obs.
Export Obs.

(** ** Small file systems and workers to run the scripts on *)

Module Examples.

(** Five songs, two of them with the same name in different folders. *)
Definition corpus : gmap (list string) node :=
  list_to_map
    [ (["src"], Dir);
      (["src"; "a"], Dir);
      (["src"; "b"], Dir);
      (["src"; "a"; "x.mp3"], File "first x");
      (["src"; "b"; "x.mp3"], File "second x");
      (["src"; "c.mp3"], File "c");
      (["src"; "d.mp3"], File "d");
      (["src"; "e.mp3"], File "e");
      (["src"; "notes.txt"], File "n") ].

(** A worker that creates its output folder and exits with status 0. *)
Definition touch_worker : Batch.worker_t :=
  λ input output fs, (0, <[output := Dir]> fs).

(** A worker that creates its output folder and then fails on the chunk
    named [chunk_01]. *)
Definition flaky_worker : Batch.worker_t :=
  λ input output fs,
    (if decide (name output = "chunk_01") then 2 else 0, <[output := Dir]> fs).

Definition copy_args (n : Z) : Batch.args :=
  Batch.Args ["src"] ["work"] ["out"] n false.
Definition move_args (n : Z) : Batch.args :=
  Batch.Args ["src"] ["work"] ["out"] n true.

(** Three chunk output folders; the second is missing, the third holds a
    sub-folder. *)
Definition outputs : gmap (list string) node :=
  list_to_map
    [ (["out"], Dir);
      (["out"; "chunk_00"], Dir);
      (["out"; "chunk_00"; "song.emb"], File "from chunk 0");
      (["out"; "chunk_02"], Dir);
      (["out"; "chunk_02"; "song.emb"], File "from chunk 2");
      (["out"; "chunk_02"; "other.emb"], File "other");
      (["out"; "chunk_03"], Dir);
      (["out"; "chunk_03"; "cache"], Dir);
      (["out"; "chunk_03"; "cache"; "tmp.emb"], File "t");
      (["dest"], Dir);
      (["dest"; "song.emb"], File "already there") ].

Definition merge_args (n : Z) (overwrite : bool) : Merge.args :=
  Merge.Args n ["out"] ["dest"] overwrite.

End Examples.

(** ** Facts about slices and the partitioner *)

Lemma ceil_div_nonneg a n : 0 ≤ a → 0 < n → 0 ≤ ceil_div a n.
Proof.
  intros Ha Hn. unfold ceil_div.
  assert ((- a) / n ≤ 0); [|lia].
  apply Z.div_le_upper_bound; lia.
Qed.

Lemma ceil_div_covers a n : 0 < n → a ≤ n * ceil_div a n.
Proof.
  intros Hn. unfold ceil_div.
  pose proof (Z.mul_div_le (- a) n Hn). lia.
Qed.

(** A slice with non-negative bounds is a window of the list. *)
Lemma py_slice_window {A} (l : list A) (a b : Z) :
  0 ≤ a → a ≤ b →
  py_slice l a b = take (Z.to_nat (b - a)) (drop (Z.to_nat a) l).
Proof.
  intros Ha Hb. unfold py_slice, clamp_index.
  destruct (Z.ltb_spec a 0); [lia|]. destruct (Z.ltb_spec b 0); [lia|].
  destruct (Z_le_gt_dec a (Z.of_nat (length l))) as [Hin|Hout].
  - rewrite (Z.min_l a) by lia.
    destruct (Z_le_gt_dec b (Z.of_nat (length l))).
    + by rewrite (Z.min_l b) by lia.
    + rewrite (Z.min_r b) by lia.
      rewrite !take_ge; [done| |]; rewrite length_drop; lia.
  - rewrite (Z.min_r a), (Z.min_r b) by lia.
    rewrite Z.sub_diag. simpl.
    rewrite (drop_ge l (Z.to_nat a)) by lia. by rewrite take_nil.
Qed.

Lemma concat_windows {A} (l : list A) (k n : nat) :
  concat ((λ i : nat, take k (drop (i * k) l)) <$> seq 0 n) = take (n * k) l.
Proof.
  induction n as [|n IH]; [done|].
  rewrite seq_S, fmap_app, concat_app, IH. simpl.
  rewrite app_nil_r, take_take_drop. f_equal. lia.
Qed.

(** The groups that [chunkify] yields for a positive chunk count. *)
Lemma chunkify_windows {A} (files : list A) (n : Z) :
  0 < n →
  chunkify files n =
    OK ((λ i : nat,
           take (Z.to_nat (ceil_div (Z.of_nat (length files)) n))
                (drop (i * Z.to_nat (ceil_div (Z.of_nat (length files)) n)) files))
          <$> seq 0 (Z.to_nat n)).
Proof.
  intros Hn. unfold chunkify, range.
  destruct (decide (n = 0)); [lia|]. f_equal.
  apply list_fmap_ext. intros _ i _.
  pose proof (ceil_div_nonneg (Z.of_nat (length files)) n ltac:(lia) Hn) as Hk.
  rewrite py_slice_window by nia.
  f_equal; [f_equal; nia | f_equal; nia].
Qed.

Lemma chunkify_group {A} (files : list A) (n : Z) gs (i : nat) g :
  0 < n → chunkify files n = OK gs → gs !! i = Some g →
  (i < Z.to_nat n)%nat ∧
  g = take (Z.to_nat (ceil_div (Z.of_nat (length files)) n))
           (drop (i * Z.to_nat (ceil_div (Z.of_nat (length files)) n)) files).
Proof.
  intros Hn Hgs Hi. rewrite chunkify_windows in Hgs by done.
  injection Hgs as <-.
  rewrite list_lookup_fmap in Hi.
  destruct (seq 0 (Z.to_nat n) !! i) as [j|] eqn:Hj; [|done].
  apply lookup_seq in Hj as [-> ?]. simpl in Hi. by injection Hi as <-.
Qed.

(** ** The partitioner (claims C2, C3, C4) *)

(** C2.  For a chunk count [n >= 1], [chunkify] yields exactly [n] groups;
    group [i] is the window of the corpus that starts at position [i * k]
    and is at most [k] long, with [k = ceil(L / n)], so the groups are
    contiguous slices in index order that do not overlap (group [i] ends
    at or before the start of every later group), and their concatenation
    in index order is the corpus. *)
Theorem chunkify_partition {A} (files : list A) (n : Z) :
  1 ≤ n →
  ∃ gs (k : nat),
    chunkify files n = OK gs
    ∧ length gs = Z.to_nat n
    ∧ concat gs = files
    ∧ (∀ (i : nat) g, gs !! i = Some g → g = take k (drop (i * k) files))
    ∧ (∀ (i j : nat) g, gs !! i = Some g → (i < j)%nat →
         (i * k + length g ≤ j * k)%nat).
Proof.
  intros Hn.
  set (k := Z.to_nat (ceil_div (Z.of_nat (length files)) n)).
  exists ((λ i : nat, take k (drop (i * k) files)) <$> seq 0 (Z.to_nat n)), k.
  split; [by apply chunkify_windows; lia|].
  split; [by rewrite length_fmap, length_seq|].
  assert (∀ (i : nat) g,
    ((λ i : nat, take k (drop (i * k) files)) <$> seq 0 (Z.to_nat n)) !! i = Some g →
    g = take k (drop (i * k) files)) as Hwin.
  { intros i g Hi. rewrite list_lookup_fmap in Hi.
    destruct (seq 0 (Z.to_nat n) !! i) as [j|] eqn:Hj; [|done].
    apply lookup_seq in Hj as [-> _]. simpl in Hi. by injection Hi as <-. }
  split; [|split; [done|]].
  - rewrite concat_windows. apply take_ge.
    pose proof (ceil_div_covers (Z.of_nat (length files)) n ltac:(lia)).
    pose proof (ceil_div_nonneg (Z.of_nat (length files)) n ltac:(lia) ltac:(lia)).
    unfold k. nia.
  - intros i j g Hi Hij. rewrite (Hwin _ _ Hi), length_take. nia.
Qed.

Lemma chunkify_partition_witness :
  ∃ gs (k : nat),
    chunkify ["a"; "b"; "c"; "d"; "e"]%string 3 = OK gs
    ∧ length gs = Z.to_nat 3
    ∧ concat gs = ["a"; "b"; "c"; "d"; "e"]%string
    ∧ (∀ (i : nat) g, gs !! i = Some g →
         g = take k (drop (i * k) ["a"; "b"; "c"; "d"; "e"]%string))
    ∧ (∀ (i j : nat) g, gs !! i = Some g → (i < j)%nat →
         (i * k + length g ≤ j * k)%nat).
Proof. apply (chunkify_partition ["a"; "b"; "c"; "d"; "e"]%string 3). lia. Defined.

(** C3 as stated fails: with 25 files and 10 chunks, group 8 is not the
    final group and holds one file, not [ceil(25 / 10) = 3]. *)
Lemma chunkify_sizes_counterexample :
  ∃ gs g,
    chunkify (seq 0 25) 10 = OK gs
    ∧ gs !! 8%nat = Some g
    ∧ 8%nat ≠ (Z.to_nat 10 - 1)%nat
    ∧ Z.of_nat (length g) ≠ ceil_div 25 10.
Proof.
  eexists _, _. split; [vm_compute; reflexivity|].
  split; [reflexivity|]. split; vm_compute; congruence.
Qed.

(** C3, amended.  For a chunk count [n >= 1] and [k = ceil(L / n)], group
    [i] holds [min(k, L - i * k)] files (none once [i * k] reaches [L]):
    the groups before position [L] is reached are full, at most one group
    holds a smaller remainder, and every group after it is empty. *)
Theorem chunkify_sizes {A} (files : list A) (n : Z) gs (i : nat) g :
  1 ≤ n →
  chunkify files n = OK gs →
  gs !! i = Some g →
  Z.of_nat (length g) =
    Z.min (ceil_div (Z.of_nat (length files)) n)
          (Z.max 0 (Z.of_nat (length files)
                    - Z.of_nat i * ceil_div (Z.of_nat (length files)) n)).
Proof.
  intros Hn Hgs Hi.
  destruct (chunkify_group files n gs i g ltac:(lia) Hgs Hi) as [_ ->].
  pose proof (ceil_div_nonneg (Z.of_nat (length files)) n ltac:(lia) ltac:(lia)).
  rewrite length_take, length_drop. nia.
Qed.

Lemma chunkify_sizes_witness :
  Z.of_nat (length [24%nat]) =
    Z.min (ceil_div (Z.of_nat (length (seq 0 25))) 10)
          (Z.max 0 (Z.of_nat (length (seq 0 25))
                    - Z.of_nat 8 * ceil_div (Z.of_nat (length (seq 0 25))) 10)).
Proof.
  apply (chunkify_sizes (seq 0 25) 10
           (((λ i, seq i 3) <$> [0; 3; 6; 9; 12; 15; 18; 21]%nat) ++ [[24%nat]; []])
           8 [24%nat]).
  - lia.
  - vm_compute; reflexivity.
  - reflexivity.
Defined.

(** C4 as stated fails: the sizes for 25 files and 10 chunks are not
    [3,3,3,3,3,3,3,1,1,1]. *)
Lemma chunkify_25_10_counterexample :
  ∃ gs, chunkify (seq 0 25) 10 = OK gs
        ∧ length <$> gs ≠ [3; 3; 3; 3; 3; 3; 3; 1; 1; 1]%nat.
Proof. eexists. split; [vm_compute; reflexivity|]. vm_compute. congruence. Qed.

(** C4, amended.  For a corpus of exactly 25 files and 10 chunks the group
    sizes are [3,3,3,3,3,3,3,3,1,0] in index order. *)
Theorem chunkify_25_10 {A} (files : list A) :
  length files = 25%nat →
  ∃ gs, chunkify files 10 = OK gs
        ∧ length <$> gs = [3; 3; 3; 3; 3; 3; 3; 3; 1; 0]%nat.
Proof.
  intros HL. eexists. split; [apply chunkify_windows; lia|].
  rewrite HL. change (Z.to_nat (ceil_div (Z.of_nat 25) 10)) with 3%nat.
  change (Z.to_nat 10) with 10%nat. simpl.
  rewrite !length_take, !length_drop, HL. reflexivity.
Qed.

Lemma chunkify_25_10_witness :
  ∃ gs, chunkify (seq 0 25) 10 = OK gs
        ∧ length <$> gs = [3; 3; 3; 3; 3; 3; 3; 3; 1; 0]%nat.
Proof. apply (chunkify_25_10 (seq 0 25)). reflexivity. Defined.

(** ** Reasoning about runs *)

Lemma run_bind {A B} (m : M A) (f : A → M B) s r s' :
  (m ≫= f) s = (r, s') →
  (∃ a s1, m s = (Ret a, s1) ∧ f a s1 = (r, s'))
  ∨ (∃ o, m s = (Abort o, s') ∧ r = Abort o).
Proof.
  unfold mbind, M_bind. destruct (m s) as [[a|o] s1]; intros H.
  - left. eauto.
  - right. injection H as <- <-. eauto.
Qed.

Lemma run_bind_ret {A B} (m : M A) (f : A → M B) s a s1 :
  m s = (Ret a, s1) → (m ≫= f) s = f a s1.
Proof. unfold mbind, M_bind. by intros ->. Qed.

Lemma run_bind_abort {A B} (m : M A) (f : A → M B) s o s1 :
  m s = (Abort o, s1) → (m ≫= f) s = (Abort o, s1).
Proof. unfold mbind, M_bind. by intros ->. Qed.

Lemma for_each_app {A} (l1 l2 : list A) body s :
  for_each (l1 ++ l2) body s = (for_each l1 body ;; for_each l2 body) s.
Proof.
  revert s. induction l1 as [|x l1 IH]; intros s; [done|].
  simpl. unfold mbind, M_bind in *. destruct (body x s) as [[[]|o] s1]; [|done].
  apply IH.
Qed.

(** A loop seen through an invariant on the part of the list that has been
    processed: either it runs to the end, or some iteration ends the run. *)
Lemma for_each_run {A} (I : list A → state → Prop) (l : list A) body s r s' :
  I [] s →
  (∀ pre x post s1 s2, l = pre ++ x :: post → I pre s1 →
     body x s1 = (Ret tt, s2) → I (pre ++ [x]) s2) →
  for_each l body s = (r, s') →
  match r with
  | Ret _ => I l s'
  | Abort o => ∃ pre x post s1,
      l = pre ++ x :: post ∧ I pre s1 ∧ body x s1 = (Abort o, s')
  end.
Proof.
  revert I s. induction l as [|x l IH]; intros I s H0 Hstep Hrun.
  - injection Hrun as <- <-. done.
  - simpl in Hrun. apply run_bind in Hrun as [([] & s1 & Hx & Hrest)|(o & Hx & ->)].
    + apply (IH (λ pre, I (x :: pre))) in Hrest.
      * destruct r; [done|].
        destruct Hrest as (pre & y & post & s2 & -> & ? & ?).
        by exists (x :: pre), y, post, s2.
      * by apply (Hstep [] x l s s1).
      * intros pre y post s2 s3 -> ??.
        by apply (Hstep (x :: pre) y post s2 s3).
    + by exists [], x, l, s.
Qed.

(** A property of the state that every iteration keeps, however it ends. *)
Lemma for_each_keeps {A} (P : state → Prop) (l : list A) body s r s' :
  (∀ x s1 r1 s2, x ∈ l → P s1 → body x s1 = (r1, s2) → P s2) →
  P s → for_each l body s = (r, s') → P s'.
Proof.
  revert s. induction l as [|x l IH]; intros s Hstep Hs Hrun.
  - by injection Hrun as <- <-.
  - simpl in Hrun. apply run_bind in Hrun as [([] & s1 & Hx & Hrest)|(o & Hx & ->)].
    + eapply IH; [|eapply Hstep; [|done..]|done]; [|left].
      intros. eapply Hstep; [right|..]; done.
    + eapply Hstep; [left|done..].
Qed.

Lemma run_emit e s r s' :
  emit e s = (r, s') → r = Ret tt ∧ s' = State (fs_of s) (log s ++ [e]).
Proof. intros H. by injection H as <- <-. Qed.

Lemma run_query {A} (f : _ → A) s r s' :
  query f s = (r, s') → r = Ret (f (fs_of s)) ∧ s' = s.
Proof. intros H. by injection H as <- <-. Qed.

Lemma run_fs_call f s r s' :
  fs_call f s = (r, s') →
  (∃ fs', f (fs_of s) = OK fs' ∧ r = Ret tt ∧ s' = State fs' (log s))
  ∨ (∃ e, f (fs_of s) = Raise e ∧ r = Abort (Uncaught e) ∧ s' = s).
Proof.
  unfold fs_call. destruct (f (fs_of s)) as [fs'|e]; intros H; injection H as <- <-; eauto.
Qed.

Lemma run_lift {A} (x : result A) s r s' :
  lift x s = (r, s') →
  s' = s ∧ match x with OK a => r = Ret a | Raise e => r = Abort (Uncaught e) end.
Proof. unfold lift. destruct x; intros H; by injection H as <- <-. Qed.

(** ** Chunk names *)

Lemma decode_string_of_uint d :
  decode_index (NilZero.string_of_uint d) = Some (Nat.of_uint d).
Proof.
  unfold decode_index. destruct d; try reflexivity;
    unfold NilZero.string_of_uint; by rewrite NilEmpty.usu.
Qed.

Lemma decode_fmt02 idx : decode_index (fmt02 idx) = Some idx.
Proof.
  unfold fmt02.
  pose proof (decode_string_of_uint (Nat.to_uint idx)) as H.
  rewrite DecimalNat.Unsigned.of_to in H.
  destruct (_ <? _)%nat; [|done].
  unfold decode_index in *. simpl.
  destruct (NilEmpty.uint_of_string _) as [d|]; [|done].
  simpl in *. injection H as <-. reflexivity.
Qed.

Lemma fmt02_inj i j : fmt02 i = fmt02 j → i = j.
Proof.
  intros H. apply (f_equal decode_index) in H.
  rewrite !decode_fmt02 in H. by injection H.
Qed.

Lemma chunk_name_inj i j : chunk_name i = chunk_name j → i = j.
Proof. unfold chunk_name. intros H. by apply String.app_inj, fmt02_inj in H. Qed.

Lemma string_of_uint_no_dot d :
  dot ∉ String.list_ascii_of_string (NilEmpty.string_of_uint d).
Proof.
  induction d; simpl; [apply not_elem_of_nil|..];
    (apply not_elem_of_cons; split; [discriminate|done]).
Qed.

Lemma fmt02_no_dot idx : dot ∉ String.list_ascii_of_string (fmt02 idx).
Proof.
  assert (∀ d, dot ∉ String.list_ascii_of_string (NilZero.string_of_uint d)) as H.
  { intros d. pose proof (string_of_uint_no_dot d).
    destruct d; try done. simpl. apply not_elem_of_cons. split; [discriminate|].
    apply not_elem_of_nil. }
  unfold fmt02. destruct (_ <? _)%nat; [|apply H].
  simpl. apply not_elem_of_cons. split; [discriminate|apply H].
Qed.

Lemma matches_mp3_dot s :
  matches_mp3 s = true → dot ∈ String.list_ascii_of_string s.
Proof.
  unfold matches_mp3. intros [k ->]%bool_decide_eq_true.
  apply elem_of_app. right. simpl. left.
Qed.

Lemma chunk_name_not_mp3 idx : matches_mp3 (chunk_name idx) = false.
Proof.
  destruct (matches_mp3 (chunk_name idx)) eqn:H; [|done].
  apply matches_mp3_dot in H. unfold chunk_name in H. simpl in H.
  repeat (apply elem_of_cons in H as [H|H]; [discriminate|]).
  by apply fmt02_no_dot in H.
Qed.

(** ** File-system calls *)

Lemma parent_snoc (p : list string) x : parent (p ++ [x]) = p.
Proof. unfold parent. by rewrite removelast_last. Qed.

Lemma name_snoc (p : list string) x : name (p ++ [x]) = x.
Proof. unfold name. by rewrite last_snoc. Qed.

Lemma kind_nonroot (fs : gmap (list string) node) (p : list string) : p ≠ [] → kind fs p = fs !! p.
Proof. by destruct p. Qed.

Lemma kind_insert_ne (fs : gmap (list string) node) (p q : list string) v :
  p ≠ q → kind (<[q := v]> fs) p = kind fs p.
Proof. intros. destruct p; [done|]. simpl. by rewrite lookup_insert_ne. Qed.

Lemma kind_insert_eq (fs : gmap (list string) node) (q : list string) v :
  q ≠ [] → kind (<[q := v]> fs) q = Some v.
Proof. intros. rewrite kind_nonroot by done. apply lookup_insert_eq. Qed.

Lemma kind_delete_ne (fs : gmap (list string) node) (p q : list string) :
  p ≠ q → kind (delete q fs) p = kind fs p.
Proof. intros. destruct p; [done|]. simpl. by rewrite lookup_delete_ne. Qed.

Lemma kind_insert_is_Some (fs : gmap (list string) node) (p q : list string) v :
  is_Some (kind fs p) → is_Some (kind (<[q := v]> fs) p).
Proof.
  intros H. destruct p as [|c p]; [done|]. simpl in *.
  destruct (decide (q = c :: p)) as [->|]; [rewrite lookup_insert_eq; eauto|].
  by rewrite lookup_insert_ne.
Qed.

Lemma exists_true (p : list string) (fs : gmap (list string) node) :
  exists_ p fs = true ↔ is_Some (kind fs p).
Proof. unfold exists_. apply bool_decide_eq_true. Qed.

Lemma exists_false (p : list string) (fs : gmap (list string) node) :
  exists_ p fs = false ↔ kind fs p = None.
Proof.
  unfold exists_. rewrite bool_decide_eq_false, <-eq_None_not_Some. done.
Qed.

Lemma is_dir_true (p : list string) (fs : gmap (list string) node) :
  is_dir p fs = true ↔ kind fs p = Some Dir.
Proof. unfold is_dir. apply bool_decide_eq_true. Qed.

(** What [mkdir_from] changes: it turns missing paths between [base] and
    [base ++ rest] into directories, and nothing else. *)
Lemma mkdir_from_spec (base rest : list string) (fs fs' : gmap (list string) node) :
  mkdir_from base rest fs = OK fs' →
  ∀ q, fs' !! q = fs !! q
       ∨ (fs !! q = None ∧ fs' !! q = Some Dir
          ∧ q `prefix_of` base ++ rest ∧ (length base < length q)%nat).
Proof.
  revert base fs. induction rest as [|c rest IH]; intros base fs Hrun q.
  - injection Hrun as <-. by left.
  - simpl in Hrun.
    assert (∀ fs1, mkdir_from (base ++ [c]) rest fs1 = OK fs' →
       fs' !! q = fs1 !! q
       ∨ (fs1 !! q = None ∧ fs' !! q = Some Dir
          ∧ q `prefix_of` base ++ c :: rest ∧ (length base < length q)%nat)) as Hrec.
    { intros fs1 H1. destruct (IH _ _ H1 q) as [?|(?&?&Hp&Hl)]; [by left|right].
      rewrite <-app_assoc in Hp. rewrite length_app in Hl. simpl in *.
      repeat split; [done..|lia]. }
    destruct (fs !! (base ++ [c])) as [[d|]|] eqn:Hp; [done|by apply Hrec|].
    destruct (Hrec _ Hrun) as [Heq|(Hn&?&?&?)].
    + destruct (decide (q = base ++ [c])) as [->|Hne].
      * right. rewrite Heq, lookup_insert_eq. repeat split; [done|..].
        -- exists rest. by rewrite <-app_assoc.
        -- rewrite length_app. simpl. lia.
      * left. by rewrite Heq, lookup_insert_ne.
    + destruct (decide (q = base ++ [c])) as [->|Hne].
      * by rewrite lookup_insert_eq in Hn.
      * rewrite lookup_insert_ne in Hn by done. by right.
Qed.

Lemma mkdir_from_dir (base rest : list string) (fs fs' : gmap (list string) node) :
  mkdir_from base rest fs = OK fs' → rest ≠ [] → fs' !! (base ++ rest) = Some Dir.
Proof.
  revert base fs. induction rest as [|c rest IH]; intros base fs Hrun Hne; [done|].
  simpl in Hrun.
  assert (∀ fs1, fs1 !! (base ++ [c]) = Some Dir →
     mkdir_from (base ++ [c]) rest fs1 = OK fs' →
     fs' !! (base ++ c :: rest) = Some Dir) as Hrec.
  { intros fs1 Hd H1. destruct rest as [|c' rest].
    - by injection H1 as <-.
    - rewrite (assoc_L _ base [c] (c' :: rest) : base ++ c :: c' :: rest = _).
      by apply (IH _ _ H1). }
  destruct (fs !! (base ++ [c])) as [[d|]|] eqn:Hp; [done|by eapply Hrec|].
  eapply Hrec; [|done]. apply lookup_insert_eq.
Qed.

Lemma mkdir_p_keeps (p : list string) (fs fs' : gmap (list string) node) (q : list string) :
  mkdir_p p fs = OK fs' → is_Some (kind fs q) → is_Some (kind fs' q).
Proof.
  intros Hrun Hq. destruct q as [|c q]; [done|]. simpl in *.
  destruct (mkdir_from_spec _ _ _ _ Hrun (c :: q)) as [->|(_ & -> & _)]; eauto.
Qed.

Lemma mkdir_p_frame (p : list string) (fs fs' : gmap (list string) node) (q : list string) :
  mkdir_p p fs = OK fs' → ¬ q `prefix_of` p → kind fs' q = kind fs q.
Proof.
  intros Hrun Hq. destruct q as [|c q]; [done|]. simpl in *.
  by destruct (mkdir_from_spec _ _ _ _ Hrun (c :: q)) as [->|(_ & _ & ? & _)].
Qed.

Lemma mkdir_p_dir (p : list string) (fs fs' : gmap (list string) node) :
  mkdir_p p fs = OK fs' → kind fs' p = Some Dir.
Proof.
  intros Hrun. destruct p as [|c p]; [done|].
  by apply (mkdir_from_dir [] (c :: p)) in Hrun.
Qed.

Lemma mkdir_new_inv (p : list string) (fs fs' : gmap (list string) node) :
  mkdir_new p fs = OK fs' → kind fs p = None ∧ mkdir_p p fs = OK fs'.
Proof.
  unfold mkdir_new. destruct (exists_ p fs) eqn:He; [done|].
  by apply exists_false in He.
Qed.

Lemma write_file_spec (dst : list string) (data : string) (fs fs' : gmap (list string) node) :
  write_file dst data fs = OK fs' →
  fs' = <[dst := File data]> fs
  ∧ kind fs (parent dst) = Some Dir ∧ kind fs dst ≠ Some Dir.
Proof.
  unfold write_file. intros H.
  destruct (kind fs dst) as [[d|]|] eqn:Hd; [|done|];
    (destruct (kind fs (parent dst)) as [[d'|]|]; [done| |done]);
    by injection H as <-.
Qed.

Lemma copy2_spec (src dst : list string) (fs fs' : gmap (list string) node) :
  copy2 src dst fs = OK fs' →
  ∃ data dst',
    kind fs src = Some (File data)
    ∧ dst' = (if is_dir dst fs then dst ++ [name src] else dst)
    ∧ src ≠ dst'
    ∧ kind fs (parent dst') = Some Dir
    ∧ fs' = <[dst' := File data]> fs.
Proof.
  unfold copy2. intros H.
  destruct (kind fs src) as [[data|]|]; [|done..].
  destruct (decide _) as [|Hne]; [done|].
  apply write_file_spec in H as (-> & ? & _). eauto 10.
Qed.

Lemma rename_spec (src dst : list string) (fs fs' : gmap (list string) node) :
  rename src dst fs = OK fs' →
  ∃ data,
    kind fs src = Some (File data)
    ∧ (src = dst ∧ fs' = fs
       ∨ src ≠ dst ∧ fs' = <[dst := File data]> (delete src fs)).
Proof.
  unfold rename. intros H.
  destruct (kind fs src) as [[data|]|]; [|done..]. exists data. split; [done|].
  destruct (decide _) as [|Hne]; [left; by injection H as <-|right].
  by apply write_file_spec in H as (-> & _).
Qed.

Lemma shutil_move_spec (src dst : list string) (fs fs' : gmap (list string) node) :
  shutil_move src dst fs = OK fs' →
  ∃ data dst',
    kind fs src = Some (File data)
    ∧ dst' = (if is_dir dst fs then dst ++ [name src] else dst)
    ∧ (src = dst' ∧ fs' = fs
       ∨ src ≠ dst' ∧ fs' = <[dst' := File data]> (delete src fs)).
Proof.
  unfold shutil_move. intros H. destruct (is_dir dst fs).
  - destruct (exists_ _ fs); [done|].
    apply rename_spec in H as (data & ? & ?). eauto.
  - apply rename_spec in H as (data & ? & ?). eauto.
Qed.

(** ** Properties kept by a run *)

Lemma keeps_ret P {A} (a : A) : keeps P (mret a).
Proof. intros s r s' HP H. by injection H as <- <-. Qed.

Lemma keeps_bind P {A B} (R : A → Prop) (m : M A) (f : A → M B) :
  keeps P m →
  (∀ s a s', P s → m s = (Ret a, s') → R a) →
  (∀ a, R a → keeps P (f a)) →
  keeps P (m ≫= f).
Proof.
  intros Hm HR Hf s r s' HP Hrun.
  apply run_bind in Hrun as [(a & s1 & Hm1 & Hf1)|(o & Hm1 & ->)].
  - eapply Hf; [by eapply HR|by eapply Hm|done].
  - by eapply Hm.
Qed.

Lemma keeps_seq P {A B} (m : M A) (f : A → M B) :
  keeps P m → (∀ a, keeps P (f a)) → keeps P (m ≫= f).
Proof. intros. by apply (keeps_bind P (λ _, True)). Qed.

Lemma keeps_for_each P {A} (l : list A) body :
  (∀ x, x ∈ l → keeps P (body x)) → keeps P (for_each l body).
Proof.
  intros Hbody s r s' HP Hrun. eapply (for_each_keeps P); [|done..].
  intros x s1 r1 s2 Hx HP1 H1. by eapply Hbody.
Qed.

Lemma keeps_query P {A} (f : _ → A) : keeps P (query f).
Proof. intros s r s' HP H. by apply run_query in H as [_ ->]. Qed.

Lemma keeps_lift P {A} (x : result A) : keeps P (lift x).
Proof. intros s r s' HP H. by apply run_lift in H as [-> _]. Qed.

Lemma keeps_sys_exit P {A} code : keeps P (sys_exit (A := A) code).
Proof. intros s r s' HP H. by injection H as <- <-. Qed.

Lemma keeps_and (P Q : state → Prop) {A} (m : M A) :
  keeps P m → keeps Q m → keeps (λ s, P s ∧ Q s) m.
Proof. intros HP HQ s r s' [H1 H2] Hrun. split; [by eapply HP|by eapply HQ]. Qed.

Lemma keeps_emit_fs Φ e : keeps (on_fs Φ) (emit e).
Proof. intros s r s' HP H. by apply run_emit in H as [_ ->]. Qed.

Lemma keeps_emit_log (ψ : event → Prop) e : ψ e → keeps (on_log ψ) (emit e).
Proof.
  intros He s r s' HP H. apply run_emit in H as [_ ->].
  unfold on_log in *. simpl. apply Forall_app. auto.
Qed.

Lemma keeps_fs_call_fs Φ f : call_keeps Φ f → keeps (on_fs Φ) (fs_call f).
Proof.
  intros Hf s r s' HP H.
  apply run_fs_call in H as [(fs' & Hc & _ & ->)|(e & _ & _ & ->)]; [|done].
  by eapply Hf.
Qed.

Lemma keeps_fs_call_log ψ f : keeps (on_log ψ) (fs_call f).
Proof.
  intros s r s' HP H.
  by apply run_fs_call in H as [(fs' & Hc & _ & ->)|(e & _ & _ & ->)].
Qed.

(** ** The loop bodies of the orchestrator *)

Section batch_bodies.
Context (worker : list string → list string → gmap (list string) node
                  → Z * gmap (list string) node).
Context (a : Batch.args).

Lemma run_run_worker idx input output s r s' :
  Batch.run_worker worker idx input output s = (r, s') →
  r = Ret (worker input output (fs_of s)).1
  ∧ s' = State (worker input output (fs_of s)).2
               (log s ++ [EWorker idx input output (worker input output (fs_of s)).1]).
Proof.
  unfold Batch.run_worker. destruct (worker _ _ _) as [code fs'].
  intros H. by injection H as <- <-.
Qed.

Lemma transfer_keeps_fs Φ dir f :
  call_keeps Φ (if Batch.move a then shutil_move f (dir ++ [name f])
                else copy2 f (dir ++ [name f])) →
  keeps (on_fs Φ) (Batch.transfer a dir f).
Proof.
  intros Hc. unfold Batch.transfer.
  destruct (Batch.move a);
    (apply keeps_seq; [apply keeps_emit_fs|intros _; by apply keeps_fs_call_fs]).
Qed.

Lemma transfer_keeps_log (ψ : event → Prop) dir f :
  ψ (if Batch.move a then EMove f (dir ++ [name f]) else ECopy f (dir ++ [name f])) →
  keeps (on_log ψ) (Batch.transfer a dir f).
Proof.
  intros He. unfold Batch.transfer.
  destruct (Batch.move a);
    (apply keeps_seq; [by apply keeps_emit_log|intros _; apply keeps_fs_call_log]).
Qed.

Lemma materialize_keeps_fs Φ idx g :
  call_keeps Φ (mkdir_new (Batch.chunk_in a idx)) →
  (∀ f, f ∈ g →
     call_keeps Φ (if Batch.move a
                   then shutil_move f (Batch.chunk_in a idx ++ [name f])
                   else copy2 f (Batch.chunk_in a idx ++ [name f]))) →
  keeps (on_fs Φ) (Batch.materialize a (idx, g)).
Proof.
  intros Hmk Htr. unfold Batch.materialize. simpl.
  apply keeps_seq; [apply keeps_query|]. intros [|]; [apply keeps_ret|].
  apply keeps_seq; [apply keeps_emit_fs|]. intros _.
  apply keeps_seq; [by apply keeps_fs_call_fs|]. intros _.
  apply keeps_for_each. intros f Hf. by apply transfer_keeps_fs, Htr.
Qed.

Lemma materialize_keeps_log (ψ : event → Prop) idx g :
  ψ (EMkdir (Batch.chunk_in a idx)) →
  (∀ f, f ∈ g →
     ψ (if Batch.move a then EMove f (Batch.chunk_in a idx ++ [name f])
        else ECopy f (Batch.chunk_in a idx ++ [name f]))) →
  keeps (on_log ψ) (Batch.materialize a (idx, g)).
Proof.
  intros Hmk Htr. unfold Batch.materialize. simpl.
  apply keeps_seq; [apply keeps_query|]. intros [|]; [apply keeps_ret|].
  apply keeps_seq; [by apply keeps_emit_log|]. intros _.
  apply keeps_seq; [by apply keeps_fs_call_log|]. intros _.
  apply keeps_for_each. intros f Hf. by apply transfer_keeps_log, Htr.
Qed.

Lemma process_keeps_fs (Φ : gmap (list string) node → Prop) idx :
  (∀ fs, Φ fs → Φ (worker (Batch.chunk_in a idx) (Batch.chunk_out a idx) fs).2) →
  keeps (on_fs Φ) (Batch.process worker a idx).
Proof.
  intros Hw. unfold Batch.process.
  apply keeps_seq; [apply keeps_query|]. intros [|]; [apply keeps_emit_fs|].
  apply keeps_seq; [apply keeps_query|]. intros files.
  apply keeps_seq; [apply keeps_emit_fs|]. intros _.
  apply keeps_seq.
  { intros s r s' HP H. apply run_run_worker in H as [_ ->]. by apply Hw. }
  intros code. destruct (decide _); [apply keeps_ret|].
  apply keeps_seq; [apply keeps_emit_fs|]. intros _.
  apply keeps_seq; [apply keeps_emit_fs|]. intros _. apply keeps_sys_exit.
Qed.

Lemma process_keeps_log (ψ : event → Prop) idx :
  (∀ m, ψ (EPrint m)) →
  (∀ code, ψ (EWorker idx (Batch.chunk_in a idx) (Batch.chunk_out a idx) code)) →
  keeps (on_log ψ) (Batch.process worker a idx).
Proof.
  intros Hp Hw. unfold Batch.process.
  apply keeps_seq; [apply keeps_query|]. intros [|]; [by apply keeps_emit_log|].
  apply keeps_seq; [apply keeps_query|]. intros files.
  apply keeps_seq; [by apply keeps_emit_log|]. intros _.
  apply keeps_seq.
  { intros s r s' HP H. apply run_run_worker in H as [_ ->].
    unfold on_log in *. simpl. apply Forall_app. auto. }
  intros code. destruct (decide _); [apply keeps_ret|].
  apply keeps_seq; [by apply keeps_emit_log|]. intros _.
  apply keeps_seq; [by apply keeps_emit_log|]. intros _. apply keeps_sys_exit.
Qed.

End batch_bodies.

(** ** The corpus and its groups *)

Lemma discover_named (a : Batch.args) (fs : gmap (list string) node) (f : list string) :
  f ∈ Batch.discover a fs → matches_mp3 (name f) = true.
Proof.
  unfold Batch.discover, sorted. rewrite merge_sort_Permutation.
  unfold rglob_mp3. destruct (is_dir _ _); [|by intros ?%elem_of_nil].
  intros [H _]%list_elem_of_filter. by apply Is_true_true.
Qed.

Lemma py_slice_elem {A} (l : list A) a b x : x ∈ py_slice l a b → x ∈ l.
Proof.
  unfold py_slice. intros H. by apply subseteq_take, subseteq_drop in H.
Qed.

Lemma chunkify_elem {A} (files : list A) n gs g x :
  chunkify files n = OK gs → g ∈ gs → x ∈ g → x ∈ files.
Proof.
  unfold chunkify. destruct (decide _); [done|]. intros [= <-].
  intros (i & -> & _)%list_elem_of_fmap. apply py_slice_elem.
Qed.

Lemma chunkify_length {A} (files : list A) n gs :
  chunkify files n = OK gs → length gs = Z.to_nat n.
Proof.
  unfold chunkify, range. destruct (decide _); [done|]. intros [= <-].
  by rewrite length_fmap, length_seq.
Qed.

Lemma elem_of_enumerate {A} (l : list A) i x :
  (i, x) ∈ enumerate l ↔ l !! i = Some x.
Proof.
  unfold enumerate. rewrite elem_of_lookup_imap. split.
  - by intros (j & y & [= -> ->] & ?).
  - eauto.
Qed.

Lemma elem_of_range n i : i ∈ range n ↔ (Z.of_nat i < n).
Proof. unfold range. rewrite elem_of_seq. lia. Qed.

(** ** Presence and absence of a path across the file-system calls *)

Lemma present_kind (p : list string) (fs : gmap (list string) node) :
  present p fs ↔ is_Some (kind fs p).
Proof. apply exists_true. Qed.

Lemma absent_kind (p : list string) (fs : gmap (list string) node) :
  absent p fs ↔ kind fs p = None.
Proof. apply exists_false. Qed.

Lemma mkdir_p_keeps_present (p q : list string) : call_keeps (present q) (mkdir_p p).
Proof. intros fs fs' H. rewrite !present_kind. by eapply mkdir_p_keeps. Qed.

Lemma mkdir_new_keeps_present (p q : list string) : call_keeps (present q) (mkdir_new p).
Proof. intros fs fs' [_ H]%mkdir_new_inv. by eapply mkdir_p_keeps_present. Qed.

Lemma copy2_keeps_present (src dst q : list string) :
  call_keeps (present q) (copy2 src dst).
Proof.
  intros fs fs' (data & dst' & _ & _ & _ & _ & ->)%copy2_spec.
  rewrite !present_kind. apply kind_insert_is_Some.
Qed.

Lemma move_keeps_present (src dst q : list string) :
  q ≠ src → call_keeps (present q) (shutil_move src dst).
Proof.
  intros Hq fs fs' (data & dst' & _ & _ & [[_ ->]|[_ ->]])%shutil_move_spec; [done|].
  rewrite !present_kind. intros H.
  apply kind_insert_is_Some. by rewrite kind_delete_ne.
Qed.

Lemma mkdir_p_keeps_absent (p q : list string) :
  ¬ q `prefix_of` p → call_keeps (absent q) (mkdir_p p).
Proof.
  intros Hq fs fs' H. rewrite !absent_kind. by rewrite (mkdir_p_frame _ _ _ _ H Hq).
Qed.

Lemma mkdir_new_keeps_absent (p q : list string) :
  ¬ q `prefix_of` p → call_keeps (absent q) (mkdir_new p).
Proof. intros Hq fs fs' [_ H]%mkdir_new_inv. by eapply mkdir_p_keeps_absent. Qed.

Lemma copy2_keeps_absent (src dst q : list string) :
  q ≠ dst → q ≠ dst ++ [name src] → call_keeps (absent q) (copy2 src dst).
Proof.
  intros H1 H2 fs fs' (data & dst' & _ & -> & _ & _ & ->)%copy2_spec.
  rewrite !absent_kind. intros H. rewrite kind_insert_ne; [done|].
  by destruct (is_dir dst fs).
Qed.

Lemma move_keeps_absent (src dst q : list string) :
  q ≠ dst → q ≠ dst ++ [name src] → call_keeps (absent q) (shutil_move src dst).
Proof.
  intros H1 H2 fs fs' (data & dst' & _ & -> & [[_ ->]|[_ ->]])%shutil_move_spec; [done|].
  rewrite !absent_kind. intros H. rewrite kind_insert_ne by by destruct (is_dir dst fs).
  destruct (decide (q = src)) as [->|]; [|by rewrite kind_delete_ne].
  destruct src; [done|]. simpl. apply lookup_delete_eq.
Qed.

(** A path that [rglob] found differs from every chunk folder. *)
Lemma named_ne_chunk (f base : list string) idx :
  matches_mp3 (name f) = true → f ≠ base ++ [chunk_name idx].
Proof.
  intros Hf ->. rewrite name_snoc in Hf. by rewrite chunk_name_not_mp3 in Hf.
Qed.

(** ** Chunk folders stay on disk *)

Lemma chunk_in_not_named a idx : matches_mp3 (name (Batch.chunk_in a idx)) = false.
Proof. unfold Batch.chunk_in. rewrite name_snoc. apply chunk_name_not_mp3. Qed.

Lemma chunk_out_not_named a idx : matches_mp3 (name (Batch.chunk_out a idx)) = false.
Proof. unfold Batch.chunk_out. rewrite name_snoc. apply chunk_name_not_mp3. Qed.

Lemma transfer_call_keeps_present (a : Batch.args) (dir f q : list string) :
  matches_mp3 (name q) = false → matches_mp3 (name f) = true →
  call_keeps (present q)
    (if Batch.move a then shutil_move f (dir ++ [name f]) else copy2 f (dir ++ [name f])).
Proof.
  intros Hq Hf. destruct (Batch.move a); [|apply copy2_keeps_present].
  apply move_keeps_present. intros ->. congruence.
Qed.

Lemma materialize_keeps_present (a : Batch.args) (q : list string) idx g :
  matches_mp3 (name q) = false →
  (∀ f, f ∈ g → matches_mp3 (name f) = true) →
  keeps (on_fs (present q)) (Batch.materialize a (idx, g)).
Proof.
  intros Hq Hg. apply materialize_keeps_fs; [apply mkdir_new_keeps_present|].
  intros f Hf. apply transfer_call_keeps_present; auto.
Qed.

Lemma create_chunks_keeps_present (a : Batch.args) (q : list string) mp3s :
  matches_mp3 (name q) = false →
  (∀ f, f ∈ mp3s → matches_mp3 (name f) = true) →
  keeps (on_fs (present q)) (Batch.create_chunks a mp3s).
Proof.
  intros Hq Hm. unfold Batch.create_chunks.
  apply keeps_seq; [apply keeps_emit_fs|]. intros _.
  apply keeps_seq; [apply keeps_fs_call_fs, mkdir_p_keeps_present|]. intros _.
  apply (keeps_bind _ (λ gs, chunkify mp3s (Batch.chunks a) = OK gs)).
  - apply keeps_lift.
  - intros s gs s' _ [_ H]%run_lift. by destruct (chunkify _ _); simplify_eq.
  - intros gs Hgs. apply keeps_for_each. intros [idx g] Hig.
    apply materialize_keeps_present; [done|]. intros f Hf. apply Hm.
    apply elem_of_enumerate, list_elem_of_lookup_2 in Hig.
    by eapply chunkify_elem.
Qed.

(** After its iteration, a chunk has its input folder. *)
Lemma materialize_present (a : Batch.args) idx g s s' :
  (∀ f, f ∈ g → matches_mp3 (name f) = true) →
  Batch.materialize a (idx, g) s = (Ret tt, s') →
  present (Batch.chunk_in a idx) (fs_of s').
Proof.
  intros Hg. unfold Batch.materialize. simpl. intros Hrun.
  apply run_bind in Hrun as [(b & s1 & [[= ->] ->]%run_query & Hrun)|(? & ? & [=])].
  destruct (exists_ _ _) eqn:He; [by injection Hrun as <-|].
  apply run_bind in Hrun as [([] & s1 & [_ ->]%run_emit & Hrun)|(? & ? & [=])].
  apply run_bind in Hrun as [([] & s2 & Hmk & Hrun)|(? & ? & [=])].
  apply run_fs_call in Hmk as [(fs' & Hmk & _ & ->)|(? & _ & [=] & _)].
  apply mkdir_new_inv in Hmk as [_ Hmk]. apply mkdir_p_dir in Hmk.
  eapply (keeps_for_each (on_fs (present (Batch.chunk_in a idx)))); [| |done].
  - intros f Hf. apply transfer_keeps_fs, transfer_call_keeps_present; auto.
    apply chunk_in_not_named.
  - unfold on_fs. simpl. apply present_kind. by rewrite Hmk.
Qed.

Section batch_presence.
Context (worker : list string → list string → gmap (list string) node
                  → Z * gmap (list string) node).
Context (a : Batch.args).
Hypothesis Hkeeps : worker_keeps_chunks worker a.

Lemma process_keeps_chunk_in idx j :
  keeps (on_fs (present (Batch.chunk_in a j))) (Batch.process worker a idx).
Proof. apply process_keeps_fs. intros fs. apply Hkeeps. Qed.

Lemma process_keeps_chunk_out idx j :
  keeps (on_fs (present (Batch.chunk_out a j))) (Batch.process worker a idx).
Proof. apply process_keeps_fs. intros fs. apply Hkeeps. Qed.

(** After its iteration, a chunk whose worker did not fail has its
    output folder. *)
Lemma process_present idx s s' :
  worker_delivers worker →
  Batch.process worker a idx s = (Ret tt, s') →
  present (Batch.chunk_out a idx) (fs_of s').
Proof.
  intros Hdel. unfold Batch.process. intros Hrun.
  apply run_bind in Hrun as [(b & s1 & [[= ->] ->]%run_query & Hrun)|(? & ? & [=])].
  destruct (exists_ _ _) eqn:He; [by apply run_emit in Hrun as [_ ->]|].
  apply run_bind in Hrun as [(n & s1 & [_ ->]%run_query & Hrun)|(? & ? & [=])].
  apply run_bind in Hrun as [([] & s1 & [_ ->]%run_emit & Hrun)|(? & ? & [=])].
  apply run_bind in Hrun as [(code & s2 & [[= ->] ->]%run_run_worker & Hrun)|(? & ? & [=])].
  simpl in *. destruct (decide _) as [Hc|].
  - injection Hrun as <-. simpl. eapply Hdel.
    rewrite <-Hc. apply surjective_pairing.
  - apply run_bind in Hrun as [(? & ? & _ & Hrun)|(? & ? & [=])].
    by apply run_bind in Hrun as [(? & ? & _ & Hrun)|(? & ? & [=])].
Qed.

End batch_presence.

Lemma create_chunks_present (a : Batch.args) mp3s s s' idx :
  (∀ f, f ∈ mp3s → matches_mp3 (name f) = true) →
  Batch.create_chunks a mp3s s = (Ret tt, s') →
  idx ∈ range (Batch.chunks a) →
  present (Batch.chunk_in a idx) (fs_of s').
Proof.
  intros Hm Hrun Hidx. unfold Batch.create_chunks in Hrun.
  apply run_bind in Hrun as [([] & s1 & _ & Hrun)|(? & ? & [=])].
  apply run_bind in Hrun as [([] & s2 & _ & Hrun)|(? & ? & [=])].
  apply run_bind in Hrun as [(gs & s3 & [-> Hgs]%run_lift & Hrun)|(? & ? & [=])].
  destruct (chunkify _ _) as [gs'|] eqn:Hch; [|done]. injection Hgs as <-.
  assert (∀ ig, ig ∈ enumerate gs → ∀ f, f ∈ ig.2 → matches_mp3 (name f) = true) as Hnamed.
  { intros [i g] Hig f Hf. apply Hm.
    apply elem_of_enumerate, list_elem_of_lookup_2 in Hig. by eapply chunkify_elem. }
  apply (for_each_run
    (λ pre st, ∀ ig, ig ∈ pre → present (Batch.chunk_in a ig.1) (fs_of st))) in Hrun.
  - apply chunkify_length in Hch. apply elem_of_range in Hidx.
    destruct (lookup_lt_is_Some_2 gs idx ltac:(lia)) as [g Hg].
    by apply (Hrun (idx, g)), elem_of_enumerate.
  - by intros ig ?%elem_of_nil.
  - intros pre [i g] post s4 s5 Hl HI Hx ig [Hig| ->%list_elem_of_singleton]%elem_of_app.
    + eapply (materialize_keeps_present a _ i g); [apply chunk_in_not_named| |by apply HI|done].
      apply (Hnamed (i, g)). rewrite Hl. apply elem_of_app. right. left.
    + eapply materialize_present; [|done].
      apply (Hnamed (i, g)). rewrite Hl. apply elem_of_app. right. left.
Qed.

Lemma run_chunks_present (worker : Batch.worker_t) (a : Batch.args) s s' idx :
  worker_delivers worker → worker_keeps_chunks worker a →
  Batch.run_chunks worker a s = (Ret tt, s') →
  idx ∈ range (Batch.chunks a) →
  present (Batch.chunk_out a idx) (fs_of s').
Proof.
  intros Hdel Hkeeps Hrun Hidx. unfold Batch.run_chunks in Hrun.
  apply run_bind in Hrun as [([] & s1 & _ & Hrun)|(? & ? & [=])].
  apply run_bind in Hrun as [([] & s2 & _ & Hrun)|(? & ? & [=])].
  apply (for_each_run
    (λ pre st, ∀ i, i ∈ pre → present (Batch.chunk_out a i) (fs_of st))) in Hrun.
  - by apply Hrun.
  - by intros i ?%elem_of_nil.
  - intros pre i post s4 s5 Hl HI Hx j [Hj| ->%list_elem_of_singleton]%elem_of_app.
    + eapply (process_keeps_chunk_out worker a Hkeeps i j); [by apply HI|done].
    + by eapply process_present.
Qed.

Lemma run_chunks_keeps_chunk_in (worker : Batch.worker_t) (a : Batch.args) j :
  worker_keeps_chunks worker a →
  keeps (on_fs (present (Batch.chunk_in a j))) (Batch.run_chunks worker a).
Proof.
  intros Hkeeps. unfold Batch.run_chunks.
  apply keeps_seq; [apply keeps_emit_fs|]. intros _.
  apply keeps_seq; [apply keeps_fs_call_fs, mkdir_p_keeps_present|]. intros _.
  apply keeps_for_each. intros idx _. by apply process_keeps_chunk_in.
Qed.

(** A run that reaches the end of the script leaves every chunk with its
    input and its output folder. *)
Lemma run_done_all_chunks (worker : Batch.worker_t) (a : Batch.args) (fs : gmap (list string) node) s1 :
  worker_delivers worker → worker_keeps_chunks worker a →
  Batch.run worker a fs = (Ret tt, s1) →
  all_chunks_done a (fs_of s1).
Proof.
  intros Hdel Hkeeps Hrun idx Hidx. unfold Batch.run, Batch.main in Hrun.
  apply run_bind in Hrun as [(mp3s & s0 & [[= ->] ->]%run_query & Hrun)|(? & ? & [=])].
  simpl in Hrun.
  destruct (Batch.discover a fs) as [|f0 mp3s] eqn:Hd.
  { apply run_bind in Hrun as [(? & ? & _ & [=])|(? & ? & [=])]. }
  apply run_bind in Hrun as [([] & sA & HA & Hrun)|(? & ? & [=])].
  apply run_bind in Hrun as [([] & sB & HB & Hrun)|(? & ? & [=])].
  apply run_bind in Hrun as [([] & sC & [_ ->]%run_emit & Hrun)|(? & ? & [=])].
  apply run_emit in Hrun as [_ ->]. simpl. split.
  - eapply (run_chunks_keeps_chunk_in worker a idx Hkeeps); [|done].
    eapply create_chunks_present; [|done..].
    intros f Hf. apply (discover_named a fs). by rewrite Hd.
  - by eapply run_chunks_present.
Qed.

(** ** Re-running the orchestrator (claim C1) *)

Lemma all_chunks_done_mkdir_p (a : Batch.args) (p : list string) :
  call_keeps (all_chunks_done a) (mkdir_p p).
Proof.
  intros fs fs' Hmk Hall idx Hidx. destruct (Hall idx Hidx).
  split; by eapply mkdir_p_keeps_present.
Qed.

Lemma idle_run_keeps (worker : Batch.worker_t) (a : Batch.args) :
  keeps (λ s, on_fs (all_chunks_done a) s ∧ on_log (λ e, is_idle a e = true) s)
        (Batch.main worker a).
Proof.
  assert (∀ e, is_idle a e = true →
    keeps (λ s, on_fs (all_chunks_done a) s ∧ on_log (λ e, is_idle a e = true) s)
          (emit e)) as Hemit.
  { intros e He. apply keeps_and; [apply keeps_emit_fs|by apply keeps_emit_log]. }
  assert (∀ p,
    keeps (λ s, on_fs (all_chunks_done a) s ∧ on_log (λ e, is_idle a e = true) s)
          (fs_call (mkdir_p p))) as Hmk.
  { intros p. apply keeps_and; [|apply keeps_fs_call_log].
    apply keeps_fs_call_fs, all_chunks_done_mkdir_p. }
  unfold Batch.main.
  apply keeps_seq; [apply keeps_query|]. intros [|f0 mp3s].
  { apply keeps_seq; [by apply Hemit|]. intros _. apply keeps_sys_exit. }
  apply keeps_seq.
  { unfold Batch.create_chunks.
    apply keeps_seq; [apply Hemit; simpl; apply bool_decide_eq_true; auto|]. intros _.
    apply keeps_seq; [apply Hmk|]. intros _.
    apply (keeps_bind _ (λ gs, length gs = Z.to_nat (Batch.chunks a))).
    - apply keeps_lift.
    - intros s gs s' _ [_ H]%run_lift.
      destruct (chunkify _ _) eqn:Hch; simplify_eq. by eapply chunkify_length.
    - intros gs Hgs. apply keeps_for_each. intros [idx g] Hig s r s' [Hall Hlog] Hrun.
      apply elem_of_enumerate, lookup_lt_Some in Hig.
      destruct (Hall idx) as [Hin _]; [apply elem_of_range; lia|].
      unfold Batch.materialize in Hrun. simpl in Hrun.
      apply run_bind in Hrun
        as [(b & s1 & [[= ->] ->]%run_query & Hrun)|(? & [[=] _]%run_query & _)].
      rewrite Hin in Hrun. by injection Hrun as _ <-. }
  intros _. apply keeps_seq.
  { unfold Batch.run_chunks.
    apply keeps_seq; [apply Hemit; simpl; apply bool_decide_eq_true; auto|]. intros _.
    apply keeps_seq; [apply Hmk|]. intros _.
    apply keeps_for_each. intros idx Hidx s r s' [Hall Hlog] Hrun.
    destruct (Hall idx Hidx) as [_ Hout].
    unfold Batch.process in Hrun.
    apply run_bind in Hrun
      as [(b & s1 & [[= ->] ->]%run_query & Hrun)|(? & [[=] _]%run_query & _)].
    rewrite Hout in Hrun. by eapply (Hemit (EPrint (MsgSkip idx))). }
  intros _. apply keeps_seq; [by apply Hemit|]. intros _. by apply Hemit.
Qed.

Lemma idle_no_transfer (a : Batch.args) l :
  Forall (λ e, is_idle a e = true) l →
  filter (λ e, is_transfer e = true) l = [] ∧ filter (λ e, is_worker e = true) l = [].
Proof.
  induction 1 as [|e l He _ [IH1 IH2]]; [done|].
  destruct e; try discriminate; by rewrite !filter_cons_False by (simpl; congruence).
Qed.


(** ** The shape of a run of the orchestrator *)

(** The three ways in which the iteration for one chunk can go. *)
Lemma process_cases (worker : Batch.worker_t) (a : Batch.args) idx s r s' :
  Batch.process worker a idx s = (r, s') →
  (present (Batch.chunk_out a idx) (fs_of s)
   ∧ r = Ret tt
   ∧ s' = State (fs_of s) (log s ++ [EPrint (MsgSkip idx)]))
  ∨ (absent (Batch.chunk_out a idx) (fs_of s)
     ∧ ∃ files code fs',
         worker (Batch.chunk_in a idx) (Batch.chunk_out a idx) (fs_of s) = (code, fs')
         ∧ ((code = 0 ∧ r = Ret tt
             ∧ s' = State fs'
                      (log s ++ [EPrint (MsgProcessing idx files);
                                 EWorker idx (Batch.chunk_in a idx)
                                         (Batch.chunk_out a idx) code]))
            ∨ (code ≠ 0 ∧ r = Abort (SysExit 1)
               ∧ s' = State fs'
                        (log s ++ [EPrint (MsgProcessing idx files);
                                   EWorker idx (Batch.chunk_in a idx)
                                           (Batch.chunk_out a idx) code;
                                   EPrint (MsgFailed idx code);
                                   EPrint MsgFix])))).
Proof.
  unfold Batch.process, mbind, M_bind, query, emit, Batch.run_worker, sys_exit. simpl.
  destruct (exists_ _ _) eqn:He.
  - intros [= <- <-]. by left.
  - destruct (worker _ _ _) as [code fs'] eqn:Hw. simpl. intros Hrun.
    right. split; [done|].
    eexists _, code, fs'. split; [done|].
    destruct (decide (code = 0)) as [->|Hc]; simpl in Hrun; injection Hrun as <- <-.
    + left. by rewrite <-app_assoc.
    + right. by rewrite <-!app_assoc.
Qed.

Lemma create_chunks_cases (a : Batch.args) mp3s s r s' :
  Batch.create_chunks a mp3s s = (r, s') →
  (∃ e, mkdir_p (Batch.work_dir a) (fs_of s) = Raise e
        ∧ r = Abort (Uncaught e)
        ∧ s' = State (fs_of s) (log s ++ [EMkdir (Batch.work_dir a)]))
  ∨ (∃ fs1, mkdir_p (Batch.work_dir a) (fs_of s) = OK fs1
       ∧ ((∃ e, chunkify mp3s (Batch.chunks a) = Raise e
                ∧ r = Abort (Uncaught e)
                ∧ s' = State fs1 (log s ++ [EMkdir (Batch.work_dir a)]))
          ∨ (∃ gs, chunkify mp3s (Batch.chunks a) = OK gs
                ∧ for_each (enumerate gs) (Batch.materialize a)
                    (State fs1 (log s ++ [EMkdir (Batch.work_dir a)])) = (r, s')))).
Proof.
  unfold Batch.create_chunks, mbind, M_bind, emit, fs_call, lift. simpl.
  destruct (mkdir_p _ _) as [fs1|e]; [|intros [= <- <-]; left; eauto].
  intros H. right. exists fs1. split; [done|].
  destruct (chunkify _ _) as [gs|e]; [right; eauto|].
  injection H as <- <-. left. eauto.
Qed.

Lemma run_chunks_cases (worker : Batch.worker_t) (a : Batch.args) s r s' :
  Batch.run_chunks worker a s = (r, s') →
  (∃ e, mkdir_p (Batch.out_root a) (fs_of s) = Raise e
        ∧ r = Abort (Uncaught e)
        ∧ s' = State (fs_of s) (log s ++ [EMkdir (Batch.out_root a)]))
  ∨ (∃ fs1, mkdir_p (Batch.out_root a) (fs_of s) = OK fs1
       ∧ for_each (range (Batch.chunks a)) (Batch.process worker a)
           (State fs1 (log s ++ [EMkdir (Batch.out_root a)])) = (r, s')).
Proof.
  unfold Batch.run_chunks, mbind, M_bind, emit, fs_call. simpl.
  destruct (mkdir_p _ _) as [fs1|e]; [|intros [= <- <-]; left; eauto].
  intros H. right. eauto.
Qed.

Lemma main_cases (worker : Batch.worker_t) (a : Batch.args)
    (fs : gmap (list string) node) r s' :
  Batch.run worker a fs = (r, s') →
  (Batch.discover a fs = []
   ∧ r = Abort (SysExit 1)
   ∧ s' = State fs [EPrint (MsgNoMp3 (Batch.src_dir a))])
  ∨ (Batch.discover a fs ≠ []
     ∧ ∃ rA sA,
         Batch.create_chunks a (Batch.discover a fs) (State fs []) = (rA, sA)
         ∧ match rA with
           | Abort o => r = Abort o ∧ s' = sA
           | Ret _ =>
               ∃ rB sB,
                 Batch.run_chunks worker a sA = (rB, sB)
                 ∧ match rB with
                   | Abort o => r = Abort o ∧ s' = sB
                   | Ret _ =>
                       r = Ret tt
                       ∧ s' = State (fs_of sB)
                                (log sB ++ [EPrint MsgAllFinished;
                                            EPrint (MsgNowRun (Batch.chunks a)
                                                      (Batch.out_root a))])
                   end
           end).
Proof.
  unfold Batch.run, Batch.main. unfold mbind at 1, M_bind at 1, query at 1. simpl.
  destruct (Batch.discover a fs) as [|f0 mp3s] eqn:Hd.
  { intros [= <- <-]. by left. }
  intros H. right. split; [done|].
  apply run_bind in H as [([] & sA & HA & H)|(o & HA & ->)];
    [|exists (Abort o), s'; eauto].
  exists (Ret tt), sA. split; [done|].
  apply run_bind in H as [([] & sB & HB & H)|(o & HB & ->)];
    [|exists (Abort o), s'; eauto].
  exists (Ret tt), sB. split; [done|].
  unfold mbind, M_bind, emit in H. simpl in H. injection H as <- <-.
  by rewrite <-app_assoc.
Qed.

Lemma seq_split_lt n (pre post : list nat) x :
  seq 0 n = pre ++ x :: post → ∀ j, j ∈ pre → (j < x)%nat.
Proof.
  intros Hl j [i Hi]%list_elem_of_lookup.
  assert (seq 0 n !! i = Some j) as Hj by (rewrite Hl; by apply lookup_app_l_Some).
  assert (seq 0 n !! length pre = Some x) as Hx.
  { rewrite Hl. by rewrite list_lookup_middle. }
  apply lookup_seq in Hj as [-> _]. apply lookup_seq in Hx as [-> _].
  simpl. by apply lookup_lt_Some in Hi.
Qed.

Lemma keeps_or (P Q : state → Prop) {A} (m : M A) :
  keeps P m → keeps Q m → keeps (λ s, P s ∨ Q s) m.
Proof.
  intros HP HQ s r s' [H1|H2] Hrun; [left; by eapply HP|right; by eapply HQ].
Qed.

Lemma create_chunks_keeps_log (a : Batch.args) (ψ : event → Prop) mp3s :
  (∀ p, ψ (EMkdir p)) → (∀ src dst, ψ (ECopy src dst)) → (∀ src dst, ψ (EMove src dst)) →
  keeps (on_log ψ) (Batch.create_chunks a mp3s).
Proof.
  intros H1 H2 H3. unfold Batch.create_chunks.
  apply keeps_seq; [by apply keeps_emit_log|]. intros _.
  apply keeps_seq; [apply keeps_fs_call_log|]. intros _.
  apply keeps_seq; [apply keeps_lift|]. intros gs.
  apply keeps_for_each. intros [idx g] _.
  apply materialize_keeps_log; [done|]. intros f _. by destruct (Batch.move a).
Qed.

(** A path that is neither a corpus file nor removed by the worker stays
    on disk throughout a run. *)
Lemma main_keeps_present (worker : Batch.worker_t) (a : Batch.args) (q : list string) :
  matches_mp3 (name q) = false →
  (∀ idx fs, present q fs →
     present q (worker (Batch.chunk_in a idx) (Batch.chunk_out a idx) fs).2) →
  keeps (on_fs (present q)) (Batch.main worker a).
Proof.
  intros Hq Hw. unfold Batch.main.
  apply (keeps_bind _ (λ mp3s, ∀ f, f ∈ mp3s → matches_mp3 (name f) = true)).
  - apply keeps_query.
  - intros s mp3s s' _ [[= ->] _]%run_query f. apply discover_named.
  - intros [|f0 mp3s] Hm.
    { apply keeps_seq; [apply keeps_emit_fs|]. intros _. apply keeps_sys_exit. }
    apply keeps_seq; [by apply create_chunks_keeps_present|]. intros _.
    apply keeps_seq.
    { unfold Batch.run_chunks.
      apply keeps_seq; [apply keeps_emit_fs|]. intros _.
      apply keeps_seq; [apply keeps_fs_call_fs, mkdir_p_keeps_present|]. intros _.
      apply keeps_for_each. intros idx _. apply process_keeps_fs. intros fs. apply Hw. }
    intros _. apply keeps_seq; [apply keeps_emit_fs|]. intros _. apply keeps_emit_fs.
Qed.

Lemma main_keeps_chunk_out (worker : Batch.worker_t) (a : Batch.args) j :
  worker_keeps_chunks worker a →
  keeps (on_fs (present (Batch.chunk_out a j))) (Batch.main worker a).
Proof.
  intros Hk. apply main_keeps_present; [apply chunk_out_not_named|].
  intros idx fs. apply Hk.
Qed.

(** A chunk whose output folder is on disk is never handed to the worker
    again. *)
Lemma done_chunk_never_rerun (worker : Batch.worker_t) (a : Batch.args) j :
  worker_keeps_chunks worker a →
  keeps (λ s, on_fs (present (Batch.chunk_out a j)) s
              ∧ on_log (λ e, is_worker_of j e = false) s)
        (Batch.main worker a).
Proof.
  intros Hk.
  assert (∀ e, is_worker_of j e = false →
    keeps (λ s, on_fs (present (Batch.chunk_out a j)) s
                ∧ on_log (λ e, is_worker_of j e = false) s) (emit e)) as Hemit.
  { intros e He. apply keeps_and; [apply keeps_emit_fs|by apply keeps_emit_log]. }
  unfold Batch.main.
  apply (keeps_bind _ (λ mp3s, ∀ f, f ∈ mp3s → matches_mp3 (name f) = true)).
  - apply keeps_query.
  - intros s mp3s s' _ [[= ->] _]%run_query f. apply discover_named.
  - intros [|f0 mp3s] Hm.
    { apply keeps_seq; [by apply Hemit|]. intros _. apply keeps_sys_exit. }
    apply keeps_seq.
    { apply keeps_and; [|by apply create_chunks_keeps_log].
      apply create_chunks_keeps_present; [apply chunk_out_not_named|done]. }
    intros _. apply keeps_seq.
    { unfold Batch.run_chunks.
      apply keeps_seq; [by apply Hemit|]. intros _.
      apply keeps_seq.
      { apply keeps_and; [|apply keeps_fs_call_log].
        apply keeps_fs_call_fs, mkdir_p_keeps_present. }
      intros _. apply keeps_for_each. intros idx _.
      destruct (decide (idx = j)) as [->|Hne].
      - intros s r s' [Hp Hl] Hrun.
        apply process_cases in Hrun as [(_ & _ & ->)|(Habs & _)].
        + split; [done|]. unfold on_log. simpl. apply Forall_app. auto.
        + unfold on_fs, present, absent in *. congruence.
      - apply keeps_and; [by apply process_keeps_chunk_out|].
        apply process_keeps_log; [done|]. intros code. simpl.
        by apply bool_decide_eq_false. }
    intros _. apply keeps_seq; [by apply Hemit|]. intros _. by apply Hemit.
Qed.

(** A chunk that was done before the run, or whose worker exits with
    status 0 during the run, has its output folder at the end. *)
Lemma completed_chunks_stay (worker : Batch.worker_t) (a : Batch.args) j :
  worker_delivers worker →
  worker_keeps_chunks worker a →
  keeps (λ s, on_fs (present (Batch.chunk_out a j)) s
              ∨ on_log (λ e, ∀ i o, e ≠ EWorker j i o 0) s)
        (Batch.main worker a).
Proof.
  intros Hd Hk.
  assert (∀ e, (∀ i o, e ≠ EWorker j i o 0) →
    keeps (λ s, on_fs (present (Batch.chunk_out a j)) s
                ∨ on_log (λ e, ∀ i o, e ≠ EWorker j i o 0) s) (emit e)) as Hemit.
  { intros e He. apply keeps_or; [apply keeps_emit_fs|by apply keeps_emit_log]. }
  unfold Batch.main.
  apply (keeps_bind _ (λ mp3s, ∀ f, f ∈ mp3s → matches_mp3 (name f) = true)).
  - apply keeps_query.
  - intros s mp3s s' _ [[= ->] _]%run_query f. apply discover_named.
  - intros [|f0 mp3s] Hm.
    { apply keeps_seq; [by apply Hemit|]. intros _. apply keeps_sys_exit. }
    apply keeps_seq.
    { apply keeps_or; [|by apply create_chunks_keeps_log].
      apply create_chunks_keeps_present; [apply chunk_out_not_named|done]. }
    intros _. apply keeps_seq.
    { unfold Batch.run_chunks.
      apply keeps_seq; [by apply Hemit|]. intros _.
      apply keeps_seq.
      { apply keeps_or; [|apply keeps_fs_call_log].
        apply keeps_fs_call_fs, mkdir_p_keeps_present. }
      intros _. apply keeps_for_each. intros idx _ s r s' HP Hrun.
      destruct HP as [Hp|Hl].
      { left. by eapply (process_keeps_chunk_out worker a Hk idx j). }
      apply process_cases in Hrun
        as [(_ & _ & ->)|(_ & files & code & fs' & Hw & [(-> & _ & ->)|(Hc & _ & ->)])].
      - right. unfold on_log. simpl. apply Forall_app. auto.
      - destruct (decide (idx = j)) as [->|Hne].
        + left. unfold on_fs. simpl. by eapply Hd.
        + right. unfold on_log. simpl. apply Forall_app. split; [done|].
          repeat constructor; [done|]. intros i o [=]. done.
      - right. unfold on_log. simpl. apply Forall_app. split; [done|].
        repeat constructor; try done. intros i o [=]. done. }
    intros _. apply keeps_seq; [by apply Hemit|]. intros _. by apply Hemit.
Qed.

(** ** A failing worker (claim C5) *)

(** The loop over the chunks either runs to its end, and then every
    worker entry of the log reports status 0, or it is ended by a failing
    worker, whose entry comes after those of earlier chunks only. *)
Lemma failing_entry_is_last (worker : Batch.worker_t) (a : Batch.args) l0 fs1 r s' :
  Forall (λ e, is_worker e = false) l0 →
  for_each (range (Batch.chunks a)) (Batch.process worker a) (State fs1 l0) = (r, s') →
  match r with
  | Ret _ => Forall (λ e, ∀ j i o c, e = EWorker j i o c → c = 0) (log s')
  | Abort out =>
      ∃ idx pre fs_before code,
        idx ∈ range (Batch.chunks a)
        ∧ out = SysExit 1 ∧ code ≠ 0
        ∧ worker (Batch.chunk_in a idx) (Batch.chunk_out a idx) fs_before
          = (code, fs_of s')
        ∧ log s' = pre ++ [EWorker idx (Batch.chunk_in a idx) (Batch.chunk_out a idx) code;
                           EPrint (MsgFailed idx code); EPrint MsgFix]
        ∧ Forall (λ e, ∀ j i o c, e = EWorker j i o c → (j < idx)%nat ∧ c = 0) pre
  end.
Proof.
  intros Hl0 Hrun.
  apply (for_each_run
    (λ pre st, Forall (λ e, ∀ j i o c, e = EWorker j i o c → j ∈ pre ∧ c = 0) (log st)))
    in Hrun.
  - destruct r as [[]|out].
    + eapply Forall_impl; [done|]. intros e He j i o c ->. by eapply He.
    + destruct Hrun as (pre & idx & post & s1 & Hl & HI & Hx).
      apply process_cases in Hx
        as [(_ & [=] & _)
           |(_ & files & code & fs' & Hw & [(_ & [=] & _)|(Hc & [= <-] & ->)])].
      exists idx, (log s1 ++ [EPrint (MsgProcessing idx files)]), (fs_of s1), code.
      split; [rewrite Hl; apply elem_of_app; right; left|].
      repeat split; [done..|by rewrite <-app_assoc|].
      apply Forall_app. split; [|by repeat constructor].
      eapply Forall_impl; [done|]. intros e He j i o c ->.
      destruct (He j i o c eq_refl) as [Hj ->]. split; [|done].
      by eapply seq_split_lt.
  - simpl. eapply Forall_impl; [done|]. by intros e He j i o c ->.
  - intros pre idx post s1 s2 Hl HI Hx.
    assert (Forall (λ e, ∀ j i o c, e = EWorker j i o c → j ∈ pre ++ [idx] ∧ c = 0)
                   (log s1)) as HI'.
    { eapply Forall_impl; [done|]. intros e He j i o c ->.
      destruct (He j i o c eq_refl). split; [|done]. apply elem_of_app. by left. }
    apply process_cases in Hx
      as [(_ & _ & ->)|(_ & files & code & fs' & Hw & [(-> & _ & ->)|(_ & [=] & _)])];
      simpl; apply Forall_app; (split; [done|]);
      repeat (apply Forall_cons; split); try apply Forall_nil_2; try done.
    intros j i o c [= -> _ _ <-]. split; [|done]. apply elem_of_app. right. left.
Qed.


(** ** A chunk count that is not positive (claim C6) *)

(** C6 as stated fails: with [--chunks -1] the run does not fail at all,
    it exits with status 0 after creating [work_dir] and [out_root]; with
    [--chunks 0] it fails with a division by zero, but only after
    [work_dir] has been created. *)
Lemma nonpositive_chunks_counterexample :
  (∃ s, Batch.run Examples.touch_worker (Examples.copy_args (-1)) Examples.corpus
          = (Ret tt, s)
        ∧ exit_status (Ret tt) = 0
        ∧ absent ["work"] Examples.corpus ∧ present ["work"] (fs_of s))
  ∧ (∃ s, Batch.run Examples.touch_worker (Examples.copy_args 0) Examples.corpus
            = (Abort (Uncaught ZeroDivisionError), s)
          ∧ absent ["work"] Examples.corpus ∧ present ["work"] (fs_of s)).
Proof. split; eexists; (split; [vm_compute; reflexivity|]); vm_compute; auto. Qed.

(** C6, amended.  For a chunk count [N <= 0] and a corpus that is not
    empty, the run first creates [work_dir]; with [N = 0] it then fails
    with an uncaught division by zero; with [N < 0] it does not fail: it
    creates [out_root] and exits with status 0.  In both cases no chunk
    folder is created, no file is transferred and no worker is invoked. *)
Theorem nonpositive_chunks (worker : Batch.worker_t) (a : Batch.args)
    (fs fs1 : gmap (list string) node) :
  Batch.chunks a ≤ 0 →
  Batch.discover a fs ≠ [] →
  mkdir_p (Batch.work_dir a) fs = OK fs1 →
  (Batch.chunks a = 0 →
     Batch.run worker a fs
     = (Abort (Uncaught ZeroDivisionError), State fs1 [EMkdir (Batch.work_dir a)]))
  ∧ (Batch.chunks a < 0 →
     ∀ fs2, mkdir_p (Batch.out_root a) fs1 = OK fs2 →
       Batch.run worker a fs
       = (Ret tt,
          State fs2 [EMkdir (Batch.work_dir a); EMkdir (Batch.out_root a);
                     EPrint MsgAllFinished;
                     EPrint (MsgNowRun (Batch.chunks a) (Batch.out_root a))])).
Proof.
  intros Hn Hd Hmk.
  unfold Batch.run, Batch.main, Batch.create_chunks, Batch.run_chunks.
  unfold mbind, M_bind, query, emit, fs_call, lift. cbn -[mkdir_p chunkify].
  destruct (Batch.discover a fs) as [|f0 mp3s]; [done|].
  cbn -[mkdir_p chunkify]. rewrite Hmk. unfold chunkify. split.
  - intros ->. by destruct (decide (0 = 0)).
  - intros Hneg fs2 Hmk2. destruct (decide (Batch.chunks a = 0)); [lia|].
    unfold range. rewrite Z2Nat.nonpos by lia. cbn -[mkdir_p]. by rewrite Hmk2.
Qed.

Lemma nonpositive_chunks_witness :
  Batch.run Examples.touch_worker (Examples.copy_args (-1)) Examples.corpus
  = (Ret tt,
     State (<[["out"] := Dir]> (<[["work"] := Dir]> Examples.corpus))
           [EMkdir ["work"]; EMkdir ["out"]; EPrint MsgAllFinished;
            EPrint (MsgNowRun (-1) ["out"])]).
Proof.
  apply (nonpositive_chunks Examples.touch_worker (Examples.copy_args (-1))
           Examples.corpus (<[["work"] := Dir]> Examples.corpus)).
  - simpl. lia.
  - vm_compute. discriminate.
  - vm_compute. reflexivity.
  - simpl. lia.
  - vm_compute. reflexivity.
Defined.

(** ** What a chunk folder holds (claim C9) *)

(** C9 fails on inputs of the same name.  The corpus is found
    recursively, but a file is placed in the chunk folder under its bare
    name: when [src/a/x.mp3] and [src/b/x.mp3] fall into the same chunk,
    the second copy replaces the first, and the folder of a chunk with
    five assigned inputs holds four files.  With [--move] the content of
    the first file is lost altogether. *)
Theorem same_name_inputs_collide :
  (∃ s group,
     Batch.run Examples.touch_worker (Examples.copy_args 1) Examples.corpus = (Ret tt, s)
     ∧ chunkify (Batch.discover (Examples.copy_args 1) Examples.corpus) 1 = OK [group]
     ∧ length group = 5%nat
     ∧ length (entries (Batch.chunk_in (Examples.copy_args 1) 0) (fs_of s)) = 4%nat
     ∧ fs_of s !! ["work"; "chunk_00"; "x.mp3"] = Some (File "second x"))
  ∧ (∃ s,
       Batch.run Examples.touch_worker (Examples.move_args 1) Examples.corpus = (Ret tt, s)
       ∧ length (entries (Batch.chunk_in (Examples.move_args 1) 0) (fs_of s)) = 4%nat
       ∧ ∀ p, fs_of s !! p ≠ Some (File "first x")).
Proof.
  split.
  - eexists _, _. split; [vm_compute; reflexivity|].
    split; [vm_compute; reflexivity|]. by vm_compute.
  - eexists. split; [vm_compute; reflexivity|]. split; [by vm_compute|].
    intros p Hp. apply elem_of_map_to_list in Hp.
    set (l := map_to_list _) in Hp. vm_compute in l. subst l.
    repeat (apply elem_of_cons in Hp as [[=]|Hp]).
    by apply elem_of_nil in Hp.
Qed.

(** ** Chunks without files (claim C10) *)

Lemma filter_none {A} (f : A → bool) (l : list A) :
  Forall (λ x, f x = false) l → filter (λ x, f x = true) l = [].
Proof.
  induction 1 as [|x l Hx _ IH]; [done|].
  rewrite filter_cons_False; [done|congruence].
Qed.

Lemma keeps_monotone (P : state → Prop) :
  log_monotone P →
  (∀ e, keeps P (emit e)) ∧ (∀ f, keeps P (fs_call f)).
Proof.
  intros HP. split.
  - intros e s r s' Hs [_ ->]%run_emit. by apply HP.
  - intros f s r s' Hs [(fs' & _ & _ & ->)|(e & _ & _ & ->)]%run_fs_call; [|done].
    rewrite <-(app_nil_r (log s)). by apply HP.
Qed.

Lemma materialize_keeps_monotone (a : Batch.args) (P : state → Prop) ig :
  log_monotone P → keeps P (Batch.materialize a ig).
Proof.
  intros [Hemit Hcall]%keeps_monotone. unfold Batch.materialize.
  apply keeps_seq; [apply keeps_query|]. intros [|]; [apply keeps_ret|].
  apply keeps_seq; [apply Hemit|]. intros _.
  apply keeps_seq; [apply Hcall|]. intros _.
  apply keeps_for_each. intros f _. unfold Batch.transfer.
  destruct (Batch.move a); (apply keeps_seq; [apply Hemit|intros _; apply Hcall]).
Qed.

Lemma enumerate_indices {A} (l : list A) : (enumerate l).*1 = seq 0 (length l).
Proof.
  apply list_eq. intros i. unfold enumerate.
  rewrite list_lookup_fmap, list_lookup_imap.
  destruct (l !! i) as [x|] eqn:Hi; simpl; symmetry.
  - apply lookup_seq. split; [done|]. by apply lookup_lt_Some in Hi.
  - apply lookup_ge_None. rewrite length_seq. by apply lookup_ge_None in Hi.
Qed.

Lemma NoDup_split_notin {A} (pre post : list A) x :
  NoDup (pre ++ x :: post) → x ∉ pre.
Proof.
  intros [_ [H _]]%NoDup_app Hx. apply (H x Hx). left.
Qed.

Lemma chunk_in_inj (a : Batch.args) i j : Batch.chunk_in a i = Batch.chunk_in a j → i = j.
Proof. unfold Batch.chunk_in. intros H. by apply app_inv_head, (inj (.:: [])), chunk_name_inj in H. Qed.

Lemma prefix_same_length {A} (l k : list A) :
  l `prefix_of` k → length l = length k → l = k.
Proof.
  intros [m ->] Hlen. rewrite length_app in Hlen.
  destruct m; [by rewrite app_nil_r|simpl in Hlen; lia].
Qed.

Section empty_group.
Context (a : Batch.args) (idx : nat).

Lemma materialize_other_absent_in j g :
  j ≠ idx →
  keeps (on_fs (absent (Batch.chunk_in a idx))) (Batch.materialize a (j, g)).
Proof.
  intros Hj. apply materialize_keeps_fs.
  - apply mkdir_new_keeps_absent. intros Hp.
    apply prefix_same_length in Hp; [|unfold Batch.chunk_in; by rewrite !length_app].
    by apply chunk_in_inj in Hp.
  - intros f _.
    assert (∀ x : list string,
      Batch.chunk_in a idx ≠ (Batch.chunk_in a j ++ [name f]) ++ x) as Hlen.
    { intros x Hx. apply (f_equal length) in Hx. unfold Batch.chunk_in in Hx.
      rewrite !length_app in Hx. simpl in Hx. lia. }
    destruct (Batch.move a);
      [apply move_keeps_absent|apply copy2_keeps_absent];
      try apply Hlen; rewrite <-(app_nil_r (_ ++ [name f])); apply Hlen.
Qed.

Lemma materialize_absent_out j g :
  (∀ i, ¬ Batch.chunk_out a idx `prefix_of` Batch.chunk_in a i) →
  (∀ f, f ∈ g → matches_mp3 (name f) = true) →
  keeps (on_fs (absent (Batch.chunk_out a idx))) (Batch.materialize a (j, g)).
Proof.
  intros Hlay Hg. apply materialize_keeps_fs.
  - apply mkdir_new_keeps_absent, Hlay.
  - intros f Hf.
    assert (∀ x : list string, Batch.chunk_out a idx ≠ x ++ [name f]) as Hne.
    { intros x Hx. apply (f_equal name) in Hx. rewrite name_snoc in Hx.
      pose proof (chunk_out_not_named a idx) as Hn. rewrite Hx in Hn.
      rewrite (Hg f Hf) in Hn. done. }
    destruct (Batch.move a);
      [apply move_keeps_absent|apply copy2_keeps_absent]; apply Hne.
Qed.

Lemma materialize_foreign j g :
  (j = idx → g = []) →
  keeps (on_log (foreign_to (Batch.chunk_in a idx))) (Batch.materialize a (j, g)).
Proof.
  intros Hg. apply materialize_keeps_log; [done|].
  intros f Hf.
  assert (j ≠ idx) as Hj.
  { intros Heq. rewrite (Hg Heq) in Hf. by apply elem_of_nil in Hf. }
  assert (parent (Batch.chunk_in a j ++ [name f]) ≠ Batch.chunk_in a idx) as Hp.
  { rewrite parent_snoc. intros H. by apply chunk_in_inj in H. }
  destruct (Batch.move a); (split; [done|]); simpl; by apply bool_decide_eq_false.
Qed.

(** The iteration for a chunk without files and without folder. *)
Lemma materialize_empty s s' :
  absent (Batch.chunk_in a idx) (fs_of s) →
  Batch.materialize a (idx, []) s = (Ret tt, s') →
  log s' = log s ++ [EMkdir (Batch.chunk_in a idx)].
Proof.
  intros Habs. unfold Batch.materialize, mbind, M_bind, query, emit, fs_call.
  cbn -[mkdir_new]. rewrite Habs. cbn -[mkdir_new].
  destruct (mkdir_new _ _); [|done]. simpl. by intros [= <-].
Qed.

End empty_group.

Lemma log_elem_monotone (e : event) : log_monotone (λ s, e ∈ log s).
Proof. intros s fs' l Hs. simpl. apply elem_of_app. by left. Qed.

Lemma is_worker_of_false_worker idx (e : event) :
  is_worker e = false → is_worker_of idx e = false.
Proof. by destruct e. Qed.

(** The chunk folders are created: chunk [idx], which has no file and no
    folder yet, gets its folder and no file. *)
Lemma create_chunks_empty_group (a : Batch.args) (fs : gmap (list string) node)
    mp3s gs idx sA :
  (∀ f, f ∈ mp3s → matches_mp3 (name f) = true) →
  (∀ j, ¬ Batch.chunk_out a idx `prefix_of` Batch.chunk_in a j) →
  chunkify mp3s (Batch.chunks a) = OK gs →
  gs !! idx = Some [] →
  absent (Batch.chunk_in a idx) fs →
  absent (Batch.chunk_out a idx) fs →
  Batch.create_chunks a mp3s (State fs []) = (Ret tt, sA) →
  absent (Batch.chunk_out a idx) (fs_of sA)
  ∧ Forall (foreign_to (Batch.chunk_in a idx)) (log sA)
  ∧ EMkdir (Batch.chunk_in a idx) ∈ log sA.
Proof.
  intros Hm Hlay Hgs Hidx Hin Hout Hrun.
  apply create_chunks_cases in Hrun
    as [(e & _ & [=] & _)|(fs1 & Hmk & [(e & _ & [=] & _)|(gs' & Hgs' & Hrun)])].
  rewrite Hgs in Hgs'. injection Hgs' as <-.
  assert (∀ j g, (j, g) ∈ enumerate gs →
            (∀ f, f ∈ g → matches_mp3 (name f) = true) ∧ (j = idx → g = [])) as Hgroups.
  { intros j g Hjg%elem_of_enumerate. split.
    - intros f Hf. apply Hm. eapply chunkify_elem; [done| |done].
      by eapply list_elem_of_lookup_2.
    - intros ->. congruence. }
  apply (for_each_run (λ pre st,
      absent (Batch.chunk_out a idx) (fs_of st)
      ∧ Forall (foreign_to (Batch.chunk_in a idx)) (log st)
      ∧ (idx ∈ pre.*1 → EMkdir (Batch.chunk_in a idx) ∈ log st)
      ∧ (idx ∉ pre.*1 → absent (Batch.chunk_in a idx) (fs_of st)))) in Hrun.
  - destruct Hrun as (? & ? & Hmkdir & _). repeat split; [done..|].
    apply Hmkdir. rewrite enumerate_indices. apply elem_of_seq.
    apply lookup_lt_Some in Hidx. lia.
  - simpl. repeat split.
    + eapply mkdir_p_keeps_absent; [|done..]. intros Hp.
      apply (Hlay 0%nat). etrans; [done|]. by apply prefix_app_r.
    + by repeat constructor.
    + by intros ?%elem_of_nil.
    + intros _. eapply mkdir_p_keeps_absent; [|done..]. intros Hp%prefix_length.
      unfold Batch.chunk_in in Hp. rewrite length_app in Hp. simpl in Hp. lia.
  - intros pre [j g] post s1 s2 Hl (Ho & Hlog & Hdone & Htodo) Hx.
    destruct (Hgroups j g) as [Hnamed Hempty].
    { rewrite Hl. apply elem_of_app. right. left. }
    assert (idx ∉ pre.*1 ∨ j ≠ idx) as Hfresh.
    { destruct (decide (j = idx)) as [->|]; [left|by right].
      pose proof (NoDup_seq 0 (length gs)) as Hnd.
      rewrite <-enumerate_indices, Hl, fmap_app in Hnd. simpl in Hnd.
      by apply NoDup_split_notin in Hnd. }
    repeat split.
    + by eapply (materialize_absent_out a idx j g Hlay Hnamed).
    + by eapply (materialize_foreign a idx j g Hempty).
    + rewrite fmap_app. simpl. intros [Hpre| <-%list_elem_of_singleton]%elem_of_app.
      * eapply (materialize_keeps_monotone a _ (j, g) (log_elem_monotone _));
          [by apply Hdone|done].
      * destruct Hfresh as [Hfresh|]; [|done].
        rewrite (Hempty eq_refl) in Hx.
        rewrite (materialize_empty a idx s1 s2 (Htodo Hfresh) Hx).
        apply elem_of_app. right. left.
    + rewrite fmap_app. simpl. intros Hn.
      apply not_elem_of_app in Hn as [Hn1 Hn2%not_elem_of_cons].
      eapply (materialize_other_absent_in a idx j g); [by intros ->; destruct Hn2| |done].
      by apply Htodo.
Qed.

(** The worker runs on the chunks: chunk [idx], which has no output
    folder yet, is handed to it once. *)
Lemma run_chunks_empty_group (worker : Batch.worker_t) (a : Batch.args) idx sA sB :
  (∀ j fs', j ≠ idx → absent (Batch.chunk_out a idx) fs' →
     absent (Batch.chunk_out a idx)
       (worker (Batch.chunk_in a j) (Batch.chunk_out a j) fs').2) →
  idx ∈ range (Batch.chunks a) →
  absent (Batch.chunk_out a idx) (fs_of sA) →
  Forall (λ e, is_worker e = false) (log sA) →
  Batch.run_chunks worker a sA = (Ret tt, sB) →
  (∃ l, log sB = log sA ++ l ∧ Forall (λ e, is_transfer e = false) l)
  ∧ EWorker idx (Batch.chunk_in a idx) (Batch.chunk_out a idx) 0 ∈ log sB
  ∧ length (filter (λ e, is_worker_of idx e = true) (log sB)) = 1%nat.
Proof.
  intros Hlocal Hidx Hout HlogA Hrun.
  apply run_chunks_cases in Hrun as [(e & _ & [=] & _)|(fs1 & Hmk & Hrun)].
  apply (for_each_run (λ pre st,
      (∃ l, log st = log sA ++ l ∧ Forall (λ e, is_transfer e = false) l)
      ∧ (idx ∉ pre → absent (Batch.chunk_out a idx) (fs_of st)
                     ∧ Forall (λ e, is_worker_of idx e = false) (log st))
      ∧ (idx ∈ pre →
           EWorker idx (Batch.chunk_in a idx) (Batch.chunk_out a idx) 0 ∈ log st
           ∧ length (filter (λ e, is_worker_of idx e = true) (log st)) = 1%nat)))
    in Hrun.
  - destruct Hrun as (? & _ & Hdone). split; [done|]. by apply Hdone.
  - simpl. split; [|split].
    + eexists. split; [done|]. by repeat constructor.
    + intros _. split.
      * eapply mkdir_p_keeps_absent; [|done..]. intros Hp%prefix_length.
        unfold Batch.chunk_out in Hp. rewrite length_app in Hp. simpl in Hp. lia.
      * apply Forall_app. split; [|by repeat constructor].
        eapply Forall_impl; [done|]. apply is_worker_of_false_worker.
    + by intros ?%elem_of_nil.
  - intros pre j post s1 s2 Hl ((l & Hlog & Htr) & Htodo & Hdone) Hx.
    assert (idx ∉ pre ∨ j ≠ idx) as Hfresh.
    { destruct (decide (j = idx)) as [->|]; [left|by right].
      pose proof (NoDup_seq 0 (Z.to_nat (Batch.chunks a))) as Hnd.
      unfold range in Hl. rewrite Hl in Hnd. by apply NoDup_split_notin in Hnd. }
    assert (idx ∉ (pre ++ [j]) → (idx ∉ pre) ∧ j ≠ idx) as Hnotin.
    { intros Hn. split; intros Hin; apply Hn; apply elem_of_app; [by left|right].
      rewrite Hin. left. }
    apply process_cases in Hx
      as [(Hp & _ & ->)
         |(Ha & files & code & fs' & Hw & [(-> & _ & ->)|(_ & [=] & _)])]; simpl.
    + (* the chunk is skipped *)
      assert (j ≠ idx) as Hj.
      { intros ->. destruct Hfresh as [Hfresh|]; [|done].
        destruct (Htodo Hfresh) as [Habs _]. unfold present, absent in *. congruence. }
      assert (idx ∈ (pre ++ [j]) → idx ∈ pre) as Hwas.
      { by intros [?|?%list_elem_of_singleton]%elem_of_app. }
      split; [|split].
      * exists (l ++ [EPrint (MsgSkip j)]). rewrite Hlog, <-app_assoc. split; [done|].
        apply Forall_app. split; [done|]. by repeat constructor.
      * intros [Hn _]%Hnotin. destruct (Htodo Hn). split; [done|].
        apply Forall_app. split; [done|]. by repeat constructor.
      * intros Hin%Hwas. destruct (Hdone Hin) as [Hev Hcount]. split.
        -- apply elem_of_app. by left.
        -- rewrite filter_app, length_app.
           rewrite (filter_none (is_worker_of idx) [EPrint (MsgSkip j)])
             by (by repeat constructor).
           simpl. by rewrite Nat.add_0_r.
    + (* the worker runs and exits with status 0 *)
      assert (fs' = (worker (Batch.chunk_in a j) (Batch.chunk_out a j) (fs_of s1)).2)
        as Hfs'.
      { by rewrite Hw. }
      split; [|split].
      * exists (l ++ [EPrint (MsgProcessing j files);
                      EWorker j (Batch.chunk_in a j) (Batch.chunk_out a j) 0]).
        rewrite Hlog, <-app_assoc. split; [done|].
        apply Forall_app. split; [done|]. by repeat constructor.
      * intros [Hn Hj]%Hnotin. destruct (Htodo Hn). split.
        -- rewrite Hfs'. by apply Hlocal.
        -- apply Forall_app. split; [done|].
           repeat constructor. simpl. by apply bool_decide_eq_false.
      * intros [Hpre| ->%list_elem_of_singleton]%elem_of_app.
        -- destruct (Hdone Hpre) as [Hev Hcount].
           destruct Hfresh as [|Hj]; [done|]. split.
           ++ apply elem_of_app. by left.
           ++ rewrite filter_app, length_app.
              rewrite (filter_none (is_worker_of idx)
                         [EPrint (MsgProcessing j files); EWorker j _ _ 0]).
              ** simpl. by rewrite Nat.add_0_r.
              ** repeat constructor. simpl. by apply bool_decide_eq_false.
        -- destruct Hfresh as [Hn|]; [|done]. destruct (Htodo Hn) as [_ Hnone]. split.
           ++ apply elem_of_app. right. right. left.
           ++ rewrite filter_app, length_app, (filter_none _ _ Hnone). simpl.
              rewrite filter_cons_False by (simpl; congruence).
              rewrite filter_cons_True by (simpl; by apply bool_decide_eq_true). done.
Qed.


(** ** The example workers meet the assumptions *)

Lemma present_insert (p q : list string) (v : node) (fs : gmap (list string) node) :
  present p fs → present p (<[q := v]> fs).
Proof. rewrite !present_kind. apply kind_insert_is_Some. Qed.

Lemma present_insert_eq (q : list string) (v : node) (fs : gmap (list string) node) :
  present q (<[q := v]> fs).
Proof.
  apply present_kind. destruct q as [|c q]; [done|]. simpl.
  rewrite lookup_insert_eq. eauto.
Qed.

Lemma absent_insert_ne (p q : list string) (v : node) (fs : gmap (list string) node) :
  p ≠ q → absent p fs → absent p (<[q := v]> fs).
Proof. intros Hne. rewrite !absent_kind. by rewrite kind_insert_ne. Qed.

Lemma chunk_out_inj (a : Batch.args) i j :
  Batch.chunk_out a i = Batch.chunk_out a j → i = j.
Proof.
  unfold Batch.chunk_out. intros H.
  by apply app_inv_head, (inj (.:: [])), chunk_name_inj in H.
Qed.

Lemma touch_worker_delivers : worker_delivers Examples.touch_worker.
Proof. intros input output fs fs' [= <-]. apply present_insert_eq. Qed.

Lemma touch_worker_keeps (a : Batch.args) : worker_keeps_chunks Examples.touch_worker a.
Proof. intros input output fs idx. split; apply present_insert. Qed.

Lemma touch_worker_local (a : Batch.args) (idx j : nat) (fs : gmap (list string) node) :
  j ≠ idx →
  absent (Batch.chunk_out a idx) fs →
  absent (Batch.chunk_out a idx)
    (Examples.touch_worker (Batch.chunk_in a j) (Batch.chunk_out a j) fs).2.
Proof.
  intros Hj. apply absent_insert_ne. intros H. by apply chunk_out_inj in H.
Qed.

Lemma flaky_worker_delivers : worker_delivers Examples.flaky_worker.
Proof. intros input output fs fs' [= _ <-]. apply present_insert_eq. Qed.

Lemma flaky_worker_keeps (a : Batch.args) : worker_keeps_chunks Examples.flaky_worker a.
Proof. intros input output fs idx. split; apply present_insert. Qed.

(** ** The theorems at work on the examples *)




(** ** merge_outputs.py: one entry (claim C7) *)

Lemma is_file_true (p : list string) (fs : gmap (list string) node) :
  is_file p fs = true ↔ ∃ data, kind fs p = Some (File data).
Proof.
  unfold is_file. destruct (kind fs p) as [[d|]|]; split; try done; eauto.
  - by intros [? [=]].
  - by intros [? [=]].
Qed.

Lemma run_merge_entry (a : Merge.args) (f : list string) s r s' :
  Merge.merge_entry a f s = (r, s') →
  (exists_ (Merge.dest a ++ [name f]) (fs_of s) = true ∧ Merge.overwrite a = false
   ∧ r = Ret tt
   ∧ s' = State (fs_of s) (log s ++ [EPrint (MsgCollision (Merge.dest a ++ [name f]))]))
  ∨ ((exists_ (Merge.dest a ++ [name f]) (fs_of s) = false ∨ Merge.overwrite a = true)
     ∧ ((∃ fs', copy2 f (Merge.dest a ++ [name f]) (fs_of s) = OK fs'
               ∧ r = Ret tt
               ∧ s' = State fs' (log s ++ [ECopy f (Merge.dest a ++ [name f])]))
        ∨ (∃ e, copy2 f (Merge.dest a ++ [name f]) (fs_of s) = Raise e
               ∧ r = Abort (Uncaught e)
               ∧ s' = State (fs_of s)
                        (log s ++ [ECopy f (Merge.dest a ++ [name f])])))).
Proof.
  unfold Merge.merge_entry, mbind, M_bind, query, emit, fs_call. cbn -[copy2].
  destruct (exists_ _ _) eqn:He, (Merge.overwrite a) eqn:Ho; cbn -[copy2];
    try (intros [= <- <-]; left; by auto);
    (destruct (copy2 _ _ _) as [fs'|e] eqn:Hc; intros [= <- <-]; right;
     (split; [by auto|]); [left|right]; eauto).
Qed.



(** ** merge_outputs.py: the whole run (claim C8) *)

Lemma elem_of_entries (d f : list string) (fs : gmap (list string) node) :
  f ∈ entries d fs ↔ f ≠ [] ∧ parent f = d ∧ is_Some (fs !! f).
Proof.
  unfold entries. rewrite list_elem_of_filter, list_elem_of_fmap. split.
  - intros [[? ?] ([p x] & -> & Hx%elem_of_map_to_list)]. simpl in *. eauto.
  - intros (? & ? & x & Hx). split; [done|]. exists (f, x). split; [done|].
    by apply elem_of_map_to_list.
Qed.

Lemma is_file_insert_ne (p q : list string) (v : node) (fs : gmap (list string) node) :
  p ≠ q → is_file p (<[q := v]> fs) = is_file p fs.
Proof. intros. unfold is_file. by rewrite kind_insert_ne. Qed.

Lemma is_file_insert_file (p q : list string) (data : string)
    (fs : gmap (list string) node) :
  is_file p fs = true → is_file p (<[q := File data]> fs) = true.
Proof.
  intros Hp. destruct (decide (p = q)) as [->|]; [|by rewrite is_file_insert_ne].
  unfold is_file in *. destruct q; [done|]. simpl. by rewrite lookup_insert_eq.
Qed.

(** A folder can be created when no regular file is in the way. *)
Lemma mkdir_from_ok (base rest : list string) (fs : gmap (list string) node) :
  (∀ q, q `prefix_of` base ++ rest → (length base < length q)%nat →
        is_file q fs = false) →
  ∃ fs', mkdir_from base rest fs = OK fs'.
Proof.
  revert base fs. induction rest as [|c rest IH]; intros base fs Hfree; [by eexists|].
  simpl.
  assert (∀ fs1 : gmap (list string) node,
    (∀ q, q ≠ base ++ [c] → kind fs1 q = kind fs q) →
    fs1 !! (base ++ [c]) = Some Dir →
    ∃ fs', mkdir_from (base ++ [c]) rest fs1 = OK fs') as Hrec.
  { intros fs1 Hsame Hdir. apply IH. intros q Hq Hlen.
    destruct (decide (q = base ++ [c])) as [->|Hne].
    - unfold is_file. rewrite kind_nonroot by by destruct base. by rewrite Hdir.
    - unfold is_file. rewrite Hsame by done. apply Hfree.
      + by rewrite <-app_assoc in Hq.
      + rewrite length_app in Hlen. simpl in Hlen. lia. }
  destruct (fs !! (base ++ [c])) as [[d|]|] eqn:Hp.
  - exfalso. specialize (Hfree (base ++ [c])). unfold is_file in Hfree.
    rewrite kind_nonroot, Hp in Hfree by by destruct base.
    assert (true = false); [|done]. apply Hfree.
    + exists rest. by rewrite <-app_assoc.
    + rewrite length_app. simpl. lia.
  - by apply Hrec.
  - apply Hrec; [|apply lookup_insert_eq]. intros q Hq. by apply kind_insert_ne.
Qed.

Lemma merge_inv_insert (d : list string) (x : string) (data : string)
    (fs1 fs : gmap (list string) node) :
  merge_inv d fs1 fs → merge_inv d fs1 (<[d ++ [x] := File data]> fs).
Proof.
  intros (Hd & Hflat & Hout). split; [|split].
  - rewrite kind_insert_ne; [done|]. intros H. apply (f_equal length) in H.
    rewrite length_app in H. simpl in H. lia.
  - intros y. destruct (decide (d ++ [y] = d ++ [x])) as [->|Hne].
    + rewrite kind_insert_eq by by destruct d. done.
    + rewrite kind_insert_ne by done. apply Hflat.
  - intros q Hq. rewrite kind_insert_ne; [by apply Hout|].
    intros ->. apply Hq. by apply prefix_app_r.
Qed.

(** An entry that is a regular file outside of the destination is merged
    without an exception. *)
Lemma merge_entry_ok (a : Merge.args) (f : list string)
    (fs1 : gmap (list string) node) s :
  merge_inv (Merge.dest a) fs1 (fs_of s) →
  is_file f fs1 = true →
  ¬ Merge.dest a `prefix_of` f →
  ∃ s' l,
    Merge.merge_entry a f s = (Ret tt, s')
    ∧ merge_inv (Merge.dest a) fs1 (fs_of s')
    ∧ log s' = log s ++ l
    ∧ merged (Merge.dest a) f s'
    ∧ (∀ p, is_file p (fs_of s) = true → is_file p (fs_of s') = true).
Proof.
  intros Hinv Hf Hout. pose proof Hinv as (Hd & Hflat & Hsame).
  assert (∃ data, kind (fs_of s) f = Some (File data)) as [data Hfile].
  { apply is_file_true. unfold is_file. rewrite Hsame by done. apply Hf. }
  assert (is_dir (Merge.dest a ++ [name f]) (fs_of s) = false) as Hnd.
  { apply bool_decide_eq_false. apply Hflat. }
  assert (f ≠ Merge.dest a ++ [name f]) as Hne.
  { intros Heq. apply Hout. rewrite Heq. by apply prefix_app_r. }
  destruct (Merge.merge_entry a f s) as [r s'] eqn:Hrun.
  apply run_merge_entry in Hrun
    as [(Hex & _ & -> & ->)|(_ & [(fs' & Hc & -> & ->)|(e & Hc & _)])].
  - eexists _, _. split; [done|]. split; [done|]. split; [done|]. split; [|done].
    split; [right; apply elem_of_app; right; left|]. simpl.
    apply exists_true in Hex as [[data'|] Hk]; [|by destruct (Hflat (name f))].
    unfold is_file. by rewrite Hk.
  - apply copy2_spec in Hc as (data' & dst' & _ & -> & _ & _ & ->). rewrite Hnd.
    eexists _, _. split; [done|]. simpl. split; [by apply merge_inv_insert|].
    split; [done|]. split.
    + split; [left; apply elem_of_app; right; left|]. simpl.
      unfold is_file. rewrite kind_insert_eq by by destruct (Merge.dest a). done.
    + intros p. apply is_file_insert_file.
  - exfalso. unfold copy2, write_file in Hc.
    rewrite Hnd, Hfile, parent_snoc, Hd in Hc.
    destruct (decide _); [done|].
    destruct (kind (fs_of s) (Merge.dest a ++ [name f])) as [[?|]|] eqn:Hk; try done.
    by destruct (Hflat (name f)).
Qed.

Lemma merged_later (d f : list string) (s s' : state) (l : list event) :
  log s' = log s ++ l →
  (∀ p, is_file p (fs_of s) = true → is_file p (fs_of s') = true) →
  merged d f s → merged d f s'.
Proof.
  intros Hl Hfiles [Hlog Hfile]. split; [|by apply Hfiles].
  rewrite Hl. destruct Hlog; [left|right]; apply elem_of_app; by left.
Qed.

(** The inner loop over the entries of one chunk folder. *)
Lemma merge_entries_ok (a : Merge.args) (fs1 : gmap (list string) node)
    (listing : list (list string)) s :
  merge_inv (Merge.dest a) fs1 (fs_of s) →
  (∀ f, f ∈ listing → is_file f fs1 = true ∧ ¬ Merge.dest a `prefix_of` f) →
  ∃ s' l,
    for_each listing (Merge.merge_entry a) s = (Ret tt, s')
    ∧ merge_inv (Merge.dest a) fs1 (fs_of s')
    ∧ log s' = log s ++ l
    ∧ (∀ f, f ∈ listing → merged (Merge.dest a) f s')
    ∧ (∀ p, is_file p (fs_of s) = true → is_file p (fs_of s') = true).
Proof.
  revert s. induction listing as [|f listing IH]; intros s Hinv Hl.
  { exists s, []. rewrite app_nil_r.
    split; [done|]. split; [done|]. split; [done|]. split; [|done].
    by intros f ?%elem_of_nil. }
  destruct (Hl f) as [Hf Hout]; [left|].
  destruct (merge_entry_ok a f fs1 s Hinv Hf Hout)
    as (s1 & l1 & Hrun1 & Hinv1 & Hlog1 & Hm1 & Hfiles1).
  destruct (IH s1 Hinv1) as (s2 & l2 & Hrun2 & Hinv2 & Hlog2 & Hm2 & Hfiles2).
  { intros g Hg. apply Hl. by right. }
  exists s2, (l1 ++ l2). simpl. rewrite (run_bind_ret _ _ _ _ _ Hrun1).
  split; [done|]. split; [done|]. split; [by rewrite Hlog2, Hlog1, app_assoc|].
  split; [|by auto].
  intros g [->|Hg]%elem_of_cons; [|by apply Hm2].
  by eapply merged_later.
Qed.

Lemma parent_name (f : list string) : f ≠ [] → f = parent f ++ [name f].
Proof.
  destruct f as [|c f] using rev_ind; [done|]. intros _.
  by rewrite parent_snoc, name_snoc.
Qed.

Lemma prefix_snoc_inv {A} (l k : list A) x :
  l `prefix_of` k ++ [x] → l = k ++ [x] ∨ l `prefix_of` k.
Proof.
  intros [m Hm]. destruct m as [|y m _] using rev_ind.
  - left. by rewrite app_nil_r in Hm.
  - right. rewrite app_assoc in Hm. apply app_inj_tail in Hm as [-> _].
    by apply prefix_app_r.
Qed.

(** What lies directly in a folder that is unrelated to [d] is outside of
    [d], and is not on the way to [d]. *)
Lemma child_outside (d cd f : list string) :
  unrelated d cd → f ≠ [] → parent f = cd →
  ¬ d `prefix_of` f ∧ ¬ f `prefix_of` d.
Proof.
  intros [H1 H2] Hne Hp. rewrite (parent_name f Hne), Hp. split.
  - intros [->|?]%prefix_snoc_inv; [|done]. apply H2. by apply prefix_app_r.
  - intros Hpre. apply H2. etrans; [|done]. by apply prefix_app_r.
Qed.

Lemma entry_outside (d cd f : list string) (fs : gmap (list string) node) :
  unrelated d cd → f ∈ entries cd fs → ¬ d `prefix_of` f ∧ ¬ f `prefix_of` d.
Proof. intros Hun (Hne & Hp & _)%elem_of_entries. by eapply child_outside. Qed.

Lemma entries_same (cd : list string) (fs fs' : gmap (list string) node) :
  (∀ f, f ≠ [] → parent f = cd → kind fs' f = kind fs f) →
  ∀ f, f ∈ entries cd fs' ↔ f ∈ entries cd fs.
Proof.
  intros Hsame f. rewrite !elem_of_entries. split; intros (Hne & Hp & Hs);
    (split; [done|]; split; [done|]); specialize (Hsame f Hne Hp);
    rewrite !kind_nonroot in Hsame by done; congruence.
Qed.

(** The outer loop body: one chunk index. *)
Lemma merge_chunk_ok (os_order : list (list string) → list (list string))
    (a : Merge.args) (fs1 : gmap (list string) node) idx s :
  (∀ l, os_order l ≡ₚ l) →
  merge_inv (Merge.dest a) fs1 (fs_of s) →
  unrelated (Merge.dest a) (Merge.chunk_dir a idx) →
  chunk_ready (Merge.chunk_dir a idx) fs1 →
  ∃ s' l,
    Merge.merge_chunk os_order a idx s = (Ret tt, s')
    ∧ merge_inv (Merge.dest a) fs1 (fs_of s')
    ∧ log s' = log s ++ l
    ∧ (kind fs1 (Merge.chunk_dir a idx) = None →
       EPrint (MsgMissing (Merge.chunk_dir a idx)) ∈ log s')
    ∧ (kind fs1 (Merge.chunk_dir a idx) = Some Dir →
       ∀ f, f ∈ entries (Merge.chunk_dir a idx) fs1 → merged (Merge.dest a) f s')
    ∧ (∀ p, is_file p (fs_of s) = true → is_file p (fs_of s') = true).
Proof.
  intros Hperm Hinv Hun Hready. pose proof Hinv as (_ & _ & Hsame).
  assert (kind (fs_of s) (Merge.chunk_dir a idx) = kind fs1 (Merge.chunk_dir a idx))
    as Hcd by (apply Hsame, Hun).
  assert (∀ f, f ∈ entries (Merge.chunk_dir a idx) (fs_of s)
               ↔ f ∈ entries (Merge.chunk_dir a idx) fs1) as Hentries.
  { apply entries_same. intros f Hne Hp. apply Hsame.
    by destruct (child_outside (Merge.dest a) (Merge.chunk_dir a idx) f Hun Hne Hp). }
  unfold Merge.merge_chunk, mbind, M_bind, query, lift, Merge.iterdir.
  cbn -[for_each]. unfold exists_. rewrite Hcd.
  destruct Hready as [Hnone|[Hdir Hfiles]].
  - rewrite Hnone. rewrite bool_decide_eq_false_2 by by intros [? [=]].
    eexists _, _. cbn. split; [done|]. split; [done|]. split; [done|].
    split; [intros _; apply elem_of_app; right; left|]. split; [done|done].
  - rewrite Hdir. rewrite bool_decide_eq_true_2 by eauto. cbn -[for_each].
    rewrite Hcd, Hdir. cbn -[for_each].
    destruct (merge_entries_ok a fs1 (os_order (entries (Merge.chunk_dir a idx) (fs_of s)))
                s Hinv) as (s' & l & Hrun & Hinv' & Hlog & Hm & Hfl).
    { intros f Hf. rewrite Hperm in Hf. split.
      - apply Hfiles. by apply Hentries.
      - apply Hentries in Hf.
        by destruct (entry_outside (Merge.dest a) _ f fs1 Hun Hf). }
    exists s', l. rewrite Hrun. split; [done|]. split; [done|]. split; [done|].
    split; [done|]. split; [|done].
    intros _ f Hf. apply Hm. rewrite Hperm. by apply Hentries.
Qed.

(** The outer loop. *)
Lemma merge_chunks_ok (os_order : list (list string) → list (list string))
    (a : Merge.args) (fs1 : gmap (list string) node) (idxs : list nat) s :
  (∀ l, os_order l ≡ₚ l) →
  merge_inv (Merge.dest a) fs1 (fs_of s) →
  (∀ idx, idx ∈ idxs →
     unrelated (Merge.dest a) (Merge.chunk_dir a idx)
     ∧ chunk_ready (Merge.chunk_dir a idx) fs1) →
  ∃ s' l,
    for_each idxs (Merge.merge_chunk os_order a) s = (Ret tt, s')
    ∧ log s' = log s ++ l
    ∧ (∀ p, is_file p (fs_of s) = true → is_file p (fs_of s') = true)
    ∧ (∀ idx, idx ∈ idxs →
         (kind fs1 (Merge.chunk_dir a idx) = None →
          EPrint (MsgMissing (Merge.chunk_dir a idx)) ∈ log s')
         ∧ (kind fs1 (Merge.chunk_dir a idx) = Some Dir →
            ∀ f, f ∈ entries (Merge.chunk_dir a idx) fs1 → merged (Merge.dest a) f s')).
Proof.
  intros Hperm. revert s. induction idxs as [|idx idxs IH]; intros s Hinv Hall.
  { exists s, []. rewrite app_nil_r. split; [done|]. split; [done|]. split; [done|].
    by intros idx ?%elem_of_nil. }
  destruct (Hall idx) as [Hun Hready]; [left|].
  destruct (merge_chunk_ok os_order a fs1 idx s Hperm Hinv Hun Hready)
    as (s1 & l1 & Hrun1 & Hinv1 & Hlog1 & Hmiss1 & Hm1 & Hfl1).
  destruct (IH s1 Hinv1) as (s2 & l2 & Hrun2 & Hlog2 & Hfl2 & Hall2).
  { intros j Hj. apply Hall. by right. }
  exists s2, (l1 ++ l2). simpl. rewrite (run_bind_ret _ _ _ _ _ Hrun1).
  split; [done|]. split; [by rewrite Hlog2, Hlog1, app_assoc|].
  split; [by auto|].
  intros j [->|Hj]%elem_of_cons; [|by apply Hall2]. split.
  - intros Hnone. rewrite Hlog2. apply elem_of_app. left. by apply Hmiss1.
  - intros Hdir f Hf. eapply merged_later; [done..|]. by apply Hm1.
Qed.




(** * Further properties of the two scripts *)

(** ** Chunk folder names *)

(** X1.  The name of a chunk folder determines the chunk index: the digits
    after [chunk_] read back as the index, so two different chunk indices
    never share an input folder or an output folder, whatever the work
    and output roots are. *)
Theorem chunk_folders_distinct (a : Batch.args) (i j : nat) :
  decode_index (fmt02 i) = Some i
  ∧ (i ≠ j →
     chunk_name i ≠ chunk_name j
     ∧ Batch.chunk_in a i ≠ Batch.chunk_in a j
     ∧ Batch.chunk_out a i ≠ Batch.chunk_out a j).
Proof.
  split; [apply decode_fmt02|]. intros Hij. split; [|split]; intros H; apply Hij.
  - by apply chunk_name_inj.
  - by eapply chunk_in_inj.
  - by eapply chunk_out_inj.
Qed.

(** X2.  No chunk folder is ever part of the corpus: a chunk folder name
    does not end in [.mp3], so [discover] never returns a chunk input or
    output folder, even when the work area lies inside the source
    folder. *)
Theorem chunk_folders_not_in_corpus (a : Batch.args) (fs : gmap (list string) node)
    (idx : nat) :
  matches_mp3 (chunk_name idx) = false
  ∧ (Batch.chunk_in a idx ∉ Batch.discover a fs)
  ∧ (Batch.chunk_out a idx ∉ Batch.discover a fs).
Proof.
  split; [apply chunk_name_not_mp3|].
  split; intros H%discover_named.
  - by rewrite chunk_in_not_named in H.
  - by rewrite chunk_out_not_named in H.
Qed.

(** ** The partitioner, continued *)

(** X3.  When the chunk count divides the number of files, all groups have
    the same size [L / n]. *)
Theorem chunkify_even_split {A} (files : list A) (n : Z) gs :
  1 ≤ n →
  (n | Z.of_nat (length files)) →
  chunkify files n = OK gs →
  Forall (λ g, Z.of_nat (length g) = Z.of_nat (length files) / n) gs.
Proof.
  intros Hn [q Hq] Hgs.
  assert (ceil_div (Z.of_nat (length files)) n = q) as Hk.
  { unfold ceil_div. rewrite Hq, <-Z.mul_opp_l, Z.div_mul by lia. lia. }
  assert (0 ≤ q) by nia.
  apply Forall_lookup. intros i g Hi.
  destruct (chunkify_group files n gs i g ltac:(lia) Hgs Hi) as [Hlt ->].
  rewrite Hk, Hq, Z.div_mul by lia.
  rewrite length_take, length_drop. nia.
Qed.

Lemma chunkify_even_split_witness :
  ∃ gs, chunkify (seq 0 12) 4 = OK gs
        ∧ Forall (λ g, Z.of_nat (length g) = Z.of_nat (length (seq 0 12)) / 4) gs.
Proof.
  eexists. split; [vm_compute; reflexivity|].
  apply (chunkify_even_split (seq 0 12) 4).
  - lia.
  - exists 3. reflexivity.
  - vm_compute. reflexivity.
Defined.

(** X4.  Where a file ends up: with [k = ceil(L / n)], the file at
    position [p] of the corpus is the entry number [p mod k] of group
    number [p / k]. *)
Theorem chunkify_locate {A} (files : list A) (n : Z) gs (p : nat) x :
  1 ≤ n →
  chunkify files n = OK gs →
  files !! p = Some x →
  ∃ g, gs !! (p / Z.to_nat (ceil_div (Z.of_nat (length files)) n))%nat = Some g
       ∧ g !! (p mod Z.to_nat (ceil_div (Z.of_nat (length files)) n))%nat = Some x.
Proof.
  intros Hn Hgs Hp.
  set (k := Z.to_nat (ceil_div (Z.of_nat (length files)) n)).
  pose proof (lookup_lt_Some _ _ _ Hp) as Hlt.
  pose proof (ceil_div_covers (Z.of_nat (length files)) n ltac:(lia)) as Hcov.
  pose proof (ceil_div_nonneg (Z.of_nat (length files)) n ltac:(lia) ltac:(lia)) as Hk0.
  assert (k ≠ 0)%nat as Hk by (unfold k; nia).
  pose proof (Nat.div_mod_eq p k) as Hdm.
  pose proof (Nat.mod_upper_bound p k Hk) as Hmod.
  assert (p / k < Z.to_nat n)%nat as Hidx.
  { apply Nat.Div0.div_lt_upper_bound. unfold k. nia. }
  rewrite chunkify_windows in Hgs by lia. injection Hgs as <-. fold k.
  exists (take k (drop (p / k * k) files)). split.
  - rewrite list_lookup_fmap, lookup_seq_lt by done. done.
  - rewrite lookup_take_lt by done. rewrite lookup_drop.
    rewrite <-Hp. f_equal. lia.
Qed.

Lemma chunkify_locate_witness :
  ∃ g, (match chunkify (seq 0 25) 10 with OK gs => gs | Raise _ => [] end)
         !! (7 / Z.to_nat (ceil_div (Z.of_nat (length (seq 0 25))) 10))%nat = Some g
       ∧ g !! (7 mod Z.to_nat (ceil_div (Z.of_nat (length (seq 0 25))) 10))%nat
         = Some 7%nat.
Proof.
  apply (chunkify_locate (seq 0 25) 10 _ 7 7%nat).
  - lia.
  - vm_compute. reflexivity.
  - reflexivity.
Defined.

(** ** Discovery of the corpus *)

Lemma path_le_total (p q : list string) : path_le p q ∨ path_le q p.
Proof.
  unfold path_le. revert q. induction p as [|a p IH]; intros [|b q]; simpl; auto.
  destruct (decide (a = b)) as [->|Hab].
  - rewrite decide_True by done. apply IH.
  - rewrite (decide_False (P := b = a)) by congruence.
    destruct (total String.le a b); [left|right]; by apply bool_decide_pack.
Qed.

Lemma elem_of_discover (a : Batch.args) (fs : gmap (list string) node)
    (f : list string) :
  f ∈ Batch.discover a fs ↔
    is_dir (Batch.src_dir a) fs = true
    ∧ Batch.src_dir a `prefix_of` f ∧ f ≠ Batch.src_dir a
    ∧ matches_mp3 (name f) = true
    ∧ is_Some (fs !! f).
Proof.
  unfold Batch.discover, sorted. rewrite merge_sort_Permutation.
  unfold rglob_mp3, descendants. destruct (is_dir _ _).
  - rewrite !list_elem_of_filter, list_elem_of_fmap. split.
    + intros (Hm & [Hp Hne] & [g x] & -> & Hx%elem_of_map_to_list).
      simpl in *. repeat split; [done..|by apply Is_true_true|by eexists].
    + intros (_ & Hp & Hne & Hm & x & Hx). split; [by apply Is_true_true|].
      split; [done|]. exists (f, x). split; [done|]. by apply elem_of_map_to_list.
  - split; [by intros ?%elem_of_nil|]. by intros [[=] _].
Qed.

Lemma discover_NoDup (a : Batch.args) (fs : gmap (list string) node) :
  NoDup (Batch.discover a fs).
Proof.
  unfold Batch.discover, sorted. rewrite merge_sort_Permutation.
  unfold rglob_mp3, descendants. destruct (is_dir _ _); [|apply NoDup_nil_2].
  apply NoDup_filter, NoDup_filter, NoDup_fst_map_to_list.
Qed.

(** X5.  The corpus that step 1 computes holds exactly the paths strictly
    below the source folder whose name ends in [.mp3] (nothing when the
    source is not a folder), each of them once, in ascending order of
    their components. *)
Theorem discover_spec (a : Batch.args) (fs : gmap (list string) node) :
  (∀ f, f ∈ Batch.discover a fs ↔
        is_dir (Batch.src_dir a) fs = true
        ∧ Batch.src_dir a `prefix_of` f ∧ f ≠ Batch.src_dir a
        ∧ matches_mp3 (name f) = true
        ∧ is_Some (fs !! f))
  ∧ NoDup (Batch.discover a fs)
  ∧ Sorted path_le (Batch.discover a fs).
Proof.
  split; [apply elem_of_discover|]. split; [apply discover_NoDup|].
  assert (Total path_le) as Htotal by exact path_le_total.
  unfold Batch.discover, sorted. by apply Sorted_merge_sort.
Qed.

(** X6.  An empty corpus ends the run at once: when the source is not a
    folder, or holds no path whose name ends in [.mp3], the run prints the
    message, exits with status 1 and leaves the file system as it found
    it, without creating the work area. *)
Theorem empty_corpus_is_fatal (worker : Batch.worker_t) (a : Batch.args)
    (fs : gmap (list string) node) :
  (is_dir (Batch.src_dir a) fs = false
   ∨ ∀ f, Batch.src_dir a `prefix_of` f → f ≠ Batch.src_dir a → is_Some (fs !! f) →
          matches_mp3 (name f) = false) →
  Batch.run worker a fs
  = (Abort (SysExit 1), State fs [EPrint (MsgNoMp3 (Batch.src_dir a))])
  ∧ exit_status (Batch.run worker a fs).1 = 1.
Proof.
  intros Hempty.
  assert (Batch.discover a fs = []) as Hd.
  { destruct (Batch.discover a fs) as [|f l] eqn:Hl; [done|]. exfalso.
    assert (f ∈ Batch.discover a fs) as Hf by (rewrite Hl; left).
    apply elem_of_discover in Hf as (Hdir & Hp & Hne & Hm & Hs).
    destruct Hempty as [Hnd|Hnone]; [congruence|].
    rewrite (Hnone f Hp Hne Hs) in Hm. done. }
  assert (Batch.run worker a fs
          = (Abort (SysExit 1), State fs [EPrint (MsgNoMp3 (Batch.src_dir a))])) as Hrun.
  { unfold Batch.run, Batch.main, mbind, M_bind, query. simpl. by rewrite Hd. }
  split; [done|]. by rewrite Hrun.
Qed.

Lemma empty_corpus_is_fatal_witness :
  Batch.run Examples.touch_worker (Batch.Args ["nowhere"] ["work"] ["out"] 3 false)
    Examples.corpus
  = (Abort (SysExit 1), State Examples.corpus [EPrint (MsgNoMp3 ["nowhere"])])
  ∧ exit_status
      (Batch.run Examples.touch_worker (Batch.Args ["nowhere"] ["work"] ["out"] 3 false)
         Examples.corpus).1 = 1.
Proof.
  apply (empty_corpus_is_fatal Examples.touch_worker
           (Batch.Args ["nowhere"] ["work"] ["out"] 3 false) Examples.corpus).
  left. vm_compute. reflexivity.
Defined.

(** ** Worker invocations of a run *)

(** A loop seen through an invariant on the processed part of the list,
    whatever the way the loop ends. *)
Lemma for_each_run_any {A} (I : list A → state → Prop) (l : list A) body s r s' :
  I [] s →
  (∀ pre x post s1 r1 s2, l = pre ++ x :: post → I pre s1 →
     body x s1 = (r1, s2) → I (pre ++ [x]) s2) →
  for_each l body s = (r, s') →
  ∃ pre, pre `prefix_of` l ∧ I pre s' ∧ (r = Ret tt → pre = l).
Proof.
  intros H0 Hstep Hrun.
  apply (for_each_run I) in Hrun; [|done|by eauto].
  destruct r as [[]|o].
  - by exists l.
  - destruct Hrun as (pre & x & post & s1 & -> & HI & Hx).
    exists (pre ++ [x]). split; [|split; [by eauto|done]].
    exists post. by rewrite <-app_assoc.
Qed.

Lemma materialize_aborts_uncaught (a : Batch.args) ig s o s' :
  Batch.materialize a ig s = (Abort o, s') → ∃ e, o = Uncaught e.
Proof.
  unfold Batch.materialize. intros Hrun.
  apply run_bind in Hrun as [(b & s1 & _ & Hrun)|(? & [[=] _]%run_query & _)].
  destruct b; [done|].
  apply run_bind in Hrun as [([] & s2 & _ & Hrun)|(? & [[=] _]%run_emit & _)].
  apply run_bind in Hrun as [([] & s3 & _ & Hrun)|(? & Hmk & [= ->])].
  2:{ apply run_fs_call in Hmk as [(? & _ & [=] & _)|(e & _ & [= ->] & _)]. eauto. }
  apply (for_each_run (λ _ _, True)) in Hrun; [|done..].
  destruct Hrun as (pre & f & post & s4 & _ & _ & Hf).
  unfold Batch.transfer in Hf.
  destruct (Batch.move a);
    (apply run_bind in Hf as [([] & s5 & _ & Hf)|(? & [[=] _]%run_emit & _)];
     apply run_fs_call in Hf as [(? & _ & [=] & _)|(e & _ & [= ->] & _)]; eauto).
Qed.

Lemma filter_worker_of_le idx (l : list event) :
  (length (filter (λ e, is_worker_of idx e = true) l)
   ≤ length (filter (λ e, is_worker e = true) l))%nat.
Proof.
  induction l as [|e l IH]; [done|]. rewrite !filter_cons.
  destruct (decide (is_worker_of idx e = true)) as [H1|H1],
           (decide (is_worker e = true)) as [H2|H2]; simpl; try lia.
  by destruct e.
Qed.

Ltac worker_entries :=
  repeat (apply Forall_cons; split;
          [first [by intros ???? [=] | by intros ???? [= -> -> ->]]|]);
  apply Forall_nil_2.

(** X7.  In any run, however it ends, every worker invocation is for a
    chunk index of the run, with that chunk's input and output folder as
    arguments, and no chunk is handed to the worker twice. *)
Theorem worker_at_most_once (worker : Batch.worker_t) (a : Batch.args)
    (fs : gmap (list string) node) (idx : nat) :
  Forall (λ e, ∀ j i o c, e = EWorker j i o c →
            j ∈ range (Batch.chunks a)
            ∧ i = Batch.chunk_in a j ∧ o = Batch.chunk_out a j)
         (log (Batch.run worker a fs).2)
  ∧ (length (filter (λ e, is_worker_of idx e = true) (log (Batch.run worker a fs).2))
     ≤ 1)%nat.
Proof.
  destruct (Batch.run worker a fs) as [r s'] eqn:Hrun. simpl.
  assert (∀ l : list event, Forall (λ e, is_worker e = false) l →
    Forall (λ e, ∀ j i o c, e = EWorker j i o c →
              j ∈ range (Batch.chunks a)
              ∧ i = Batch.chunk_in a j ∧ o = Batch.chunk_out a j) l
    ∧ filter (λ e, is_worker_of idx e = true) l = []) as Hquiet.
  { intros l Hl. split.
    - eapply Forall_impl; [done|]. by intros e He j i o c ->.
    - apply filter_none. eapply Forall_impl; [done|]. apply is_worker_of_false_worker. }
  assert (∀ l : list event, Forall (λ e, is_worker e = false) l →
    Forall (λ e, ∀ j i o c, e = EWorker j i o c →
              j ∈ range (Batch.chunks a)
              ∧ i = Batch.chunk_in a j ∧ o = Batch.chunk_out a j) l
    ∧ (length (filter (λ e, is_worker_of idx e = true) l) ≤ 1)%nat) as Hquiet'.
  { intros l Hl. destruct (Hquiet l Hl) as [? ->]. split; [done|simpl; lia]. }
  apply main_cases in Hrun as [(_ & _ & ->)|(_ & rA & sA & HA & Hrun)].
  { apply Hquiet'. by repeat constructor. }
  assert (Forall (λ e, is_worker e = false) (log sA)) as HlA.
  { eapply (create_chunks_keeps_log a (λ e, is_worker e = false));
      [done|done|done| |exact HA]. apply Forall_nil_2. }
  destruct rA as [[]|oA]; [|destruct Hrun as [_ ->]; by apply Hquiet'].
  destruct Hrun as (rB & sB & HB & Hrun).
  apply run_chunks_cases in HB as [(e & _ & -> & ->)|(fs1 & _ & HB)].
  { destruct Hrun as [_ ->]. apply Hquiet'. simpl. apply Forall_app.
    split; [done|by repeat constructor]. }
  apply (for_each_run_any (λ pre st,
      Forall (λ e, ∀ j i o c, e = EWorker j i o c →
                j ∈ range (Batch.chunks a)
                ∧ i = Batch.chunk_in a j ∧ o = Batch.chunk_out a j) (log st)
      ∧ (idx ∉ pre → filter (λ e, is_worker_of idx e = true) (log st) = [])
      ∧ (length (filter (λ e, is_worker_of idx e = true) (log st)) ≤ 1)%nat))
    in HB.
  - destruct HB as (pre & _ & (Hok & _ & Hcount) & _).
    destruct rB as [[]|oB]; destruct Hrun as [_ ->]; [|done]. simpl. split.
    + apply Forall_app. split; [done|]. worker_entries.
    + rewrite filter_app, length_app.
      rewrite (filter_none (is_worker_of idx)
                 [EPrint MsgAllFinished; EPrint (MsgNowRun _ _)])
        by (by repeat constructor).
      simpl. lia.
  - simpl. destruct (Hquiet (log sA ++ [EMkdir (Batch.out_root a)])) as [? Hnone].
    { apply Forall_app. split; [done|by repeat constructor]. }
    split; [done|]. split; [done|]. rewrite Hnone. simpl. lia.
  - intros pre j post s1 r1 s2 Hl (Hok & Hnone & Hcount) Hx.
    assert (j ∈ range (Batch.chunks a)) as Hj.
    { rewrite Hl. apply elem_of_app. right. left. }
    assert (j ∉ pre) as Hfresh.
    { pose proof (NoDup_seq 0 (Z.to_nat (Batch.chunks a))) as Hnd.
      unfold range in Hl. rewrite Hl in Hnd. by apply NoDup_split_notin in Hnd. }
    assert (∀ l : list event,
      Forall (λ e, ∀ k i o c, e = EWorker k i o c →
                k = j ∧ i = Batch.chunk_in a j ∧ o = Batch.chunk_out a j) l →
      (length (filter (λ e, is_worker e = true) l) ≤ 1)%nat →
      log s2 = log s1 ++ l →
      Forall (λ e, ∀ j i o c, e = EWorker j i o c →
                j ∈ range (Batch.chunks a)
                ∧ i = Batch.chunk_in a j ∧ o = Batch.chunk_out a j) (log s2)
      ∧ (idx ∉ (pre ++ [j]) → filter (λ e, is_worker_of idx e = true) (log s2) = [])
      ∧ (length (filter (λ e, is_worker_of idx e = true) (log s2)) ≤ 1)%nat) as Hcase.
    { intros l Hl1 Hl2 ->.
      assert (length (filter (λ e, is_worker_of idx e = true) l) ≤ 1)%nat as Hl3.
      { etrans; [apply filter_worker_of_le|exact Hl2]. }
      split; [|split].
      - apply Forall_app. split; [done|]. eapply Forall_impl; [done|].
        intros e He k i o c ->. destruct (He k i o c eq_refl) as (-> & -> & ->). done.
      - intros Hn. apply not_elem_of_app in Hn as [Hn1 Hn2%not_elem_of_cons].
        rewrite filter_app, (Hnone Hn1). simpl. apply filter_none.
        eapply Forall_impl; [done|]. intros [] He; try done. simpl.
        destruct (He _ _ _ _ eq_refl) as (-> & _). apply bool_decide_eq_false.
        by destruct Hn2.
      - rewrite filter_app, length_app.
        destruct (decide (idx = j)) as [->|Hne].
        + rewrite (Hnone Hfresh). simpl. done.
        + rewrite (filter_none (is_worker_of idx) l); [simpl; lia|].
          eapply Forall_impl; [done|]. intros [] He; try done. simpl.
          destruct (He _ _ _ _ eq_refl) as (-> & _). by apply bool_decide_eq_false. }
    apply process_cases in Hx
      as [(_ & _ & ->)
         |(_ & files & code & fs' & _ & [(_ & _ & ->)|(_ & _ & ->)])];
      simpl.
    + eapply Hcase.
      3: simpl; reflexivity.
      * worker_entries.
      * vm_compute; lia.
    + eapply Hcase.
      3: simpl; reflexivity.
      * worker_entries.
      * vm_compute; lia.
    + eapply Hcase.
      3: simpl; reflexivity.
      * worker_entries.
      * vm_compute; lia.
Qed.
